(** * Jukebox API: the Express handlers of the playlist/track service,
      embedded over a relational store.

    The development follows the layout of the application file:
    - [JsNum]: the fragment of ECMAScript numbers that [isValidId] relies on
      ([parseInt] with radix 10, [Number.prototype.toString], comparison);
    - [isValidId] and the JSON request bodies produced by [express.json()];
    - the three tables of the schema, their sequences and constraints;
    - the seven route handlers, written as programs that issue [db.query]
      calls and continue on either the returned rows or the raised error;
    - [run]: execution of a handler against a store;
    - the properties of the handlers. *)

From Stdlib Require Import ZArith String Ascii List Lia Bool.
From stdpp Require Import base list sorting gmap strings.

Set Warnings "-register-all".

Local Open Scope string_scope.
Local Open Scope Z_scope.

#[local] Arguments String.append : simpl nomatch.

(* ===================================================================== *)
(** ** ECMAScript numbers, as far as identifiers need them *)
(* ===================================================================== *)

Module JsNum.

(** A Number value that [parseInt] can return: NaN, an infinity, or a finite
    double whose value is an integer.  Negative zero is identified with
    zero: it compares, and prints, as zero. *)
Inductive Number :=
| NaN
| Infinity (negative : bool)
| Finite (z : Z).

(** Round a non-negative mathematical integer to the nearest integer that a
    double can hold: 53 significant bits, ties to even. *)
Definition round53 (m : Z) : Z :=
  let bits := Z.log2 m + 1 in
  if bits <=? 53 then m
  else
    let e := bits - 53 in
    let q := m / 2 ^ e in
    let r := m mod 2 ^ e in
    let half := 2 ^ (e - 1) in
    let q' := if (half <? r) || ((r =? half) && Z.odd q) then q + 1 else q in
    q' * 2 ^ e.

(** Doubles end below 2^1024; what rounds to 2^1024 or more is infinite. *)
Definition to_double (m : Z) : Number :=
  let v := round53 m in
  if 2 ^ 1024 <=? v then Infinity false else Finite v.

Definition negate (x : Number) : Number :=
  match x with
  | NaN => NaN
  | Infinity s => Infinity (negb s)
  | Finite z => Finite (- z)
  end.

Definition isNaN (x : Number) : bool :=
  match x with NaN => true | _ => false end.

(** [x > 0] *)
Definition gt_zero (x : Number) : bool :=
  match x with
  | NaN => false
  | Infinity s => negb s
  | Finite z => 0 <? z
  end.

(** *** Characters *)

Definition code (c : ascii) : Z := Z.of_N (N_of_ascii c).

(** White space and line terminators among the code units below 256. *)
Definition is_whitespace (c : ascii) : bool :=
  let n := code c in
  (n =? 9) || (n =? 10) || (n =? 11) || (n =? 12) || (n =? 13)
  || (n =? 32) || (n =? 160).

Definition digit_val (c : ascii) : option Z :=
  let n := code c in
  if (48 <=? n) && (n <=? 57) then Some (n - 48) else None.

Definition digit_char (d : Z) : ascii := ascii_of_N (Z.to_N (48 + d)).

(** *** Decimal rendering of a non-negative integer *)

Fixpoint decimal_go (fuel : nat) (n : Z) (acc : string) : string :=
  match fuel with
  | O => acc
  | S fuel' =>
      let acc' := String (digit_char (n mod 10)) acc in
      if n / 10 =? 0 then acc' else decimal_go fuel' (n / 10) acc'
  end.

Definition decimal (n : Z) : string :=
  decimal_go (S (Z.to_nat (Z.log2 n))) n EmptyString.

(** *** parseInt(string, 10) *)

Fixpoint skip_whitespace (s : string) : string :=
  match s with
  | String c s' => if is_whitespace c then skip_whitespace s' else s
  | EmptyString => s
  end.

(** The value of the longest prefix of decimal digits, most significant
    digit first, continuing from [acc]. *)
Fixpoint read_digits (s : string) (acc : Z) : Z :=
  match s with
  | String c s' =>
      match digit_val c with
      | Some d => read_digits s' (10 * acc + d)
      | None => acc
      end
  | EmptyString => acc
  end.

Definition starts_with_digit (s : string) : bool :=
  match s with
  | String c _ => match digit_val c with Some _ => true | None => false end
  | EmptyString => false
  end.

(** An optional sign in front of the digits. *)
Definition split_sign (s : string) : bool * string :=
  match s with
  | String c s' =>
      if Ascii.eqb c "-" then (true, s')
      else if Ascii.eqb c "+" then (false, s')
      else (false, s)
  | EmptyString => (false, s)
  end.

Definition parseInt (input : string) : Number :=
  let '(negative, s) := split_sign (skip_whitespace input) in
  if starts_with_digit s then
    let x := to_double (read_digits s 0) in
    if negative then negate x else x
  else NaN.

(** *** Number.prototype.toString() *)

(** The integer with the fewest significant digits that rounds to the
    double [z]; among those of that length the one nearest to [z], the even
    one on a tie.  [j] counts the trailing zeros tried, from the largest
    down: with step [10^j] only the two multiples around [z] can be
    nearest. *)
Fixpoint shortest_from (j : nat) (z : Z) : Z :=
  let p := 10 ^ Z.of_nat j in
  let lo := z / p in
  let a := lo * p in
  let b := (lo + 1) * p in
  let ra := (0 <? lo) && (round53 a =? z) in
  let rb := round53 b =? z in
  if ra && rb then
    if z - a <? b - z then a
    else if b - z <? z - a then b
    else if Z.even lo then a else b
  else if ra then a
  else if rb then b
  else match j with
       | O => z
       | S j' => shortest_from j' z
       end.

Definition shortest (z : Z) : Z :=
  shortest_from (String.length (decimal z)) z.

Fixpoint strip_trailing_zeros (fuel : nat) (c : Z) : Z :=
  match fuel with
  | O => c
  | S fuel' => if c mod 10 =? 0 then strip_trailing_zeros fuel' (c / 10) else c
  end.

(** A positive finite integer-valued double. *)
Definition positive_toString (z : Z) : string :=
  let c := shortest z in
  let n := Z.of_nat (String.length (decimal c)) in
  if n <=? 21 then decimal c
  else
    let digits := decimal (strip_trailing_zeros (String.length (decimal c)) c) in
    let exponent := "e+" ++ decimal (n - 1) in
    match digits with
    | String d EmptyString => String d exponent
    | String d rest => String d ("." ++ rest ++ exponent)
    | EmptyString => exponent
    end.

Definition toString (x : Number) : string :=
  match x with
  | NaN => "NaN"
  | Infinity false => "Infinity"
  | Infinity true => "-Infinity"
  | Finite z =>
      if z =? 0 then "0"
      else if z <? 0 then "-" ++ positive_toString (- z)
      else positive_toString z
  end.

End JsNum.

(* ===================================================================== *)
(** ** Validation helpers of the application *)
(* ===================================================================== *)

(** [function isValidId(idString)]:
    [const id = parseInt(idString, 10);
     return !isNaN(id) && id > 0 && id.toString() === idString;] *)
Definition isValidId (idString : string) : bool :=
  let id := JsNum.parseInt idString in
  negb (JsNum.isNaN id) && JsNum.gt_zero id
  && String.eqb (JsNum.toString id) idString.

(** "A positive-integer decimal string with no leading zeros, sign, decimal
    point or white space": a non-empty run of digits that does not start
    with 0. *)
Fixpoint all_digits (s : string) : bool :=
  match s with
  | String c s' =>
      match JsNum.digit_val c with Some _ => all_digits s' | None => false end
  | EmptyString => true
  end.

Definition is_positive_decimal (s : string) : bool :=
  match s with
  | String c _ =>
      match JsNum.digit_val c with
      | Some d => (0 <? d) && all_digits s
      | None => false
      end
  | EmptyString => false
  end.

(** Number.MAX_SAFE_INTEGER, [2^53 - 1]. *)
Definition MAX_SAFE_INTEGER : Z := 9007199254740991.

(* ===================================================================== *)
(** ** Request bodies: the values [express.json()] leaves in [req.body] *)
(* ===================================================================== *)

(** A number is kept as its integer value when it has one ([JInt]); every
    other number that JSON can denote is [JNonInteger] (never NaN).
    [JUndefined] is the absent body and the absent property.  A string is
    the sequence of its characters, of which [string] spells those below
    U+0100. *)
Inductive JsValue :=
| JUndefined
| JNull
| JBool (b : bool)
| JInt (z : Z)
| JNonInteger
| JString (s : string)
| JArray (items : list JsValue)
| JObject (fields : gmap string JsValue).

(** ToBoolean, as [!v] and [||] apply it. *)
Definition truthy (v : JsValue) : bool :=
  match v with
  | JUndefined | JNull => false
  | JBool b => b
  | JInt z => negb (z =? 0)
  | JNonInteger => true
  | JString s => negb (String.eqb s EmptyString)
  | JArray _ | JObject _ => true
  end.

(** [const { k } = v] for a truthy [v] and one of the keys the handlers
    read ([name], [description], [trackId]): only an object can own it. *)
Definition get_field (v : JsValue) (k : string) : JsValue :=
  match v with
  | JObject fields => default JUndefined (fields !! k)
  | _ => JUndefined
  end.

(* ===================================================================== *)
(** ** The schema: three tables, their sequences and constraints *)
(* ===================================================================== *)

Module Track.
Record t := { id : Z; name : string; duration_ms : Z }.
End Track.

Module Playlist.
Record t := { id : Z; name : string; description : string }.
End Playlist.

Module PlaylistTrack.
Record t := { id : Z; playlist_id : Z; track_id : Z }.
End PlaylistTrack.

(** The persisted state.  Rows are kept in insertion order.  Each [SERIAL]
    column draws from its sequence; the field holds the last value drawn
    (0 before the first draw). *)
Record Db := {
  playlists : list Playlist.t;
  tracks : list Track.t;
  playlists_tracks : list PlaylistTrack.t;
  playlists_id_seq : Z;
  tracks_id_seq : Z;
  playlists_tracks_id_seq : Z;
}.

(** The rows of the three tables, without the sequences. *)
Definition records (db : Db)
  : list Playlist.t * list Track.t * list PlaylistTrack.t :=
  (playlists db, tracks db, playlists_tracks db).

(** What the driver raises: the SQLSTATE in [.code] and, for constraint
    violations, the constraint's name in [.constraint].  Failures that do
    not come from the server (a lost connection) carry no SQLSTATE. *)
Record DbError := { code : option string; constraint : option string }.

Definition unique_violation : string := "23505".
Definition foreign_key_violation : string := "23503".
Definition invalid_text_representation : string := "22P02".
Definition numeric_value_out_of_range : string := "22003".
Definition sequence_generator_limit_exceeded : string := "2200H".
Definition character_not_in_repertoire : string := "22021".

Definition playlists_pkey : string := "playlists_pkey".
Definition playlists_tracks_pkey : string := "playlists_tracks_pkey".
Definition playlists_tracks_playlist_id_track_id_key : string :=
  "playlists_tracks_playlist_id_track_id_key".
Definition playlists_tracks_playlist_id_fkey : string :=
  "playlists_tracks_playlist_id_fkey".
Definition playlists_tracks_track_id_fkey : string :=
  "playlists_tracks_track_id_fkey".

Definition constraint_error (sqlstate name : string) : DbError :=
  {| code := Some sqlstate; constraint := Some name |}.

Definition syntax_error : DbError :=
  {| code := Some invalid_text_representation; constraint := None |}.

(** A value outside the range of [INTEGER]. *)
Definition out_of_range : DbError :=
  {| code := Some numeric_value_out_of_range; constraint := None |}.

(** [nextval] on a sequence that has reached its maximum. *)
Definition sequence_exhausted : DbError :=
  {| code := Some sequence_generator_limit_exceeded; constraint := None |}.

(** Text with the character U+0000, which [TEXT] cannot hold. *)
Definition invalid_byte_sequence : DbError :=
  {| code := Some character_not_in_repertoire; constraint := None |}.

(** The range of [INTEGER], the type of every identifier column; a
    [SERIAL] column is an [INTEGER] whose sequence ends at the same
    maximum. *)
Definition INT4_MIN : Z := -2147483648.
Definition INT4_MAX : Z := 2147483647.

(** An identifier passed as a query parameter: the string of the route, or
    the integer-valued number of the body. *)
Inductive Param :=
| PText (s : string)
| PNumber (z : Z).

(** What the driver sends for a parameter: a string as it is, a number as
    [Number.prototype.toString] prints it. *)
Definition param_text (p : Param) : string :=
  match p with
  | PText s => s
  | PNumber z => JsNum.toString (JsNum.Finite z)
  end.

(** Reading integer text on the server: optional white space, an optional
    sign, digits, optional white space.  [int_of_text] gives the integer
    that the text spells, whatever its size; whether a column can hold it
    is decided by [int4_of_text] below. *)
Definition is_space (c : ascii) : bool :=
  let n := JsNum.code c in
  (n =? 9) || (n =? 10) || (n =? 11) || (n =? 12) || (n =? 13) || (n =? 32).

Fixpoint skip_spaces (s : string) : string :=
  match s with
  | String c s' => if is_space c then skip_spaces s' else s
  | EmptyString => s
  end.

Fixpoint drop_digits (s : string) : string :=
  match s with
  | String c s' =>
      match JsNum.digit_val c with Some _ => drop_digits s' | None => s end
  | EmptyString => s
  end.

Definition int_of_text (text : string) : option Z :=
  let '(negative, s) := JsNum.split_sign (skip_spaces text) in
  if JsNum.starts_with_digit s
     && String.eqb (skip_spaces (drop_digits s)) EmptyString then
    let v := JsNum.read_digits s 0 in
    Some (if negative then - v else v)
  else None.

(** Does the text contain U+0000?  The server refuses such a parameter
    when it receives it (22021), whatever the type it is meant for. *)
Fixpoint has_nul (s : string) : bool :=
  match s with
  | String c s' => (JsNum.code c =? 0) || has_nul s'
  | EmptyString => false
  end.

(** The text of a parameter that is compared with, or stored in, an
    [INTEGER] column: it must spell an integer (22P02 otherwise), and one
    that the type can hold (22003 otherwise). *)
Definition int4_of_text (text : string) : sum DbError Z :=
  if has_nul text then inl invalid_byte_sequence
  else
    match int_of_text text with
    | Some v =>
        if (INT4_MIN <=? v) && (v <=? INT4_MAX) then inr v
        else inl out_of_range
    | None => inl syntax_error
    end.

Definition param_int (p : Param) : sum DbError Z := int4_of_text (param_text p).

(** The statements the application issues, one constructor per SQL text. *)
Inductive Sql :=
| SelectTracks
    (* SELECT id, name, duration_ms FROM tracks ORDER BY id *)
| SelectTrackById (id : Param)
    (* SELECT id, name, duration_ms FROM tracks WHERE id = $1 *)
| SelectPlaylists
    (* SELECT id, name, description FROM playlists ORDER BY id *)
| InsertPlaylist (name description : string)
    (* INSERT INTO playlists (name, description) VALUES ($1, $2)
       RETURNING id, name, description *)
| SelectPlaylistById (id : Param)
    (* SELECT id, name, description FROM playlists WHERE id = $1 *)
| SelectPlaylistIdById (id : Param)
    (* SELECT id FROM playlists WHERE id = $1 *)
| SelectPlaylistTracks (id : Param)
    (* SELECT t.id, t.name, t.duration_ms FROM tracks t
       INNER JOIN playlists_tracks pt ON t.id = pt.track_id
       WHERE pt.playlist_id = $1 ORDER BY t.id *)
| SelectTrackIdById (id : Param)
    (* SELECT id FROM tracks WHERE id = $1 *)
| InsertPlaylistTrack (playlist_id track_id : Param).
    (* INSERT INTO playlists_tracks (playlist_id, track_id) VALUES ($1, $2)
       RETURNING id, playlist_id, track_id *)

Definition is_select (q : Sql) : bool :=
  match q with
  | InsertPlaylist _ _ | InsertPlaylistTrack _ _ => false
  | _ => true
  end.

Inductive Row :=
| TrackRow (t : Track.t)
| PlaylistRow (p : Playlist.t)
| IdRow (id : Z)
| PlaylistTrackRow (pt : PlaylistTrack.t).

(** What [await db.query(...)] does: hand back [result.rows] or throw. *)
Inductive Outcome :=
| Rows (rows : list Row)
| Throws (e : DbError).

(** Rows compared by an integer key. *)
Definition key_le {A : Type} (key : A -> Z) (a b : A) : Prop := key a <= key b.
Definition key_lt {A : Type} (key : A -> Z) (a b : A) : Prop := key a < key b.

#[global] Instance key_le_dec {A : Type} (key : A -> Z) : RelDecision (key_le key).
Proof. intros a b. unfold key_le. apply _. Defined.

(** [ORDER BY id] *)
Definition order_tracks_by_id : list Track.t -> list Track.t :=
  merge_sort (key_le Track.id).
Definition order_playlists_by_id : list Playlist.t -> list Playlist.t :=
  merge_sort (key_le Playlist.id).

(** [tracks t INNER JOIN playlists_tracks pt ON t.id = pt.track_id
     WHERE pt.playlist_id = p]: a track gives one row for each row of
    [playlists_tracks] that joins with it. *)
Definition joined (db : Db) (p : Z) (t : Track.t) : list Track.t :=
  pt ← playlists_tracks db;
  if decide (Track.id t = PlaylistTrack.track_id pt
             /\ PlaylistTrack.playlist_id pt = p)
  then [t] else [].

Definition join_playlist_tracks (db : Db) (p : Z) : list Track.t :=
  t ← tracks db; joined db p t.

Definition playlist_ids (db : Db) : list Z := Playlist.id <$> playlists db.
Definition track_ids (db : Db) : list Z := Track.id <$> tracks db.
Definition playlist_track_ids (db : Db) : list Z :=
  PlaylistTrack.id <$> playlists_tracks db.
Definition playlist_track_pairs (db : Db) : list (Z * Z) :=
  (fun pt => (PlaylistTrack.playlist_id pt, PlaylistTrack.track_id pt))
    <$> playlists_tracks db.

(** A draw from the sequence behind [playlists.id]; a draw is kept even
    when the statement that made it fails afterwards. *)
Definition drawn_playlist (db : Db) : Db :=
  {| playlists := playlists db; tracks := tracks db;
     playlists_tracks := playlists_tracks db;
     playlists_id_seq := playlists_id_seq db + 1;
     tracks_id_seq := tracks_id_seq db;
     playlists_tracks_id_seq := playlists_tracks_id_seq db |}.

(** The draw, and [row] stored after the rows of [playlists]. *)
Definition with_playlist (db : Db) (row : Playlist.t) : Db :=
  {| playlists := playlists db ++ [row]; tracks := tracks db;
     playlists_tracks := playlists_tracks db;
     playlists_id_seq := playlists_id_seq db + 1;
     tracks_id_seq := tracks_id_seq db;
     playlists_tracks_id_seq := playlists_tracks_id_seq db |}.

Definition new_playlist (db : Db) (name description : string) : Playlist.t :=
  {| Playlist.id := playlists_id_seq db + 1; Playlist.name := name;
     Playlist.description := description |}.

(** [INSERT INTO playlists]: the two [TEXT] parameters are read, the
    default of [id] draws from the sequence, which fails once [INT4_MAX] was
    drawn, then the primary key is checked. *)
Definition insert_playlist (name description : string) (db : Db)
  : Outcome * Db :=
  let row := new_playlist db name description in
  if has_nul name || has_nul description then
    (Throws invalid_byte_sequence, db)
  else if decide (INT4_MAX <= playlists_id_seq db) then
    (Throws sequence_exhausted, db)
  else if decide (Playlist.id row ∈ playlist_ids db) then
    (Throws (constraint_error unique_violation playlists_pkey),
     drawn_playlist db)
  else (Rows [PlaylistRow row], with_playlist db row).

(** The same for [playlists_tracks.id]. *)
Definition drawn_playlist_track (db : Db) : Db :=
  {| playlists := playlists db; tracks := tracks db;
     playlists_tracks := playlists_tracks db;
     playlists_id_seq := playlists_id_seq db;
     tracks_id_seq := tracks_id_seq db;
     playlists_tracks_id_seq := playlists_tracks_id_seq db + 1 |}.

Definition with_playlist_track (db : Db) (row : PlaylistTrack.t) : Db :=
  {| playlists := playlists db; tracks := tracks db;
     playlists_tracks := playlists_tracks db ++ [row];
     playlists_id_seq := playlists_id_seq db;
     tracks_id_seq := tracks_id_seq db;
     playlists_tracks_id_seq := playlists_tracks_id_seq db + 1 |}.

Definition new_playlist_track (db : Db) (p t : Z) : PlaylistTrack.t :=
  {| PlaylistTrack.id := playlists_tracks_id_seq db + 1;
     PlaylistTrack.playlist_id := p; PlaylistTrack.track_id := t |}.

(** [INSERT INTO playlists_tracks]: sequence draw, which fails once
    [INT4_MAX] was drawn, primary key, [UNIQUE(playlist_id, track_id)], then
    the two foreign keys. *)
Definition insert_playlist_track (p t : Z) (db : Db) : Outcome * Db :=
  let row := new_playlist_track db p t in
  let failed constraint_name sqlstate :=
    (Throws (constraint_error sqlstate constraint_name),
     drawn_playlist_track db) in
  if decide (INT4_MAX <= playlists_tracks_id_seq db) then
    (Throws sequence_exhausted, db)
  else if decide (PlaylistTrack.id row ∈ playlist_track_ids db) then
    failed playlists_tracks_pkey unique_violation
  else if decide ((p, t) ∈ playlist_track_pairs db) then
    failed playlists_tracks_playlist_id_track_id_key unique_violation
  else if decide (p ∉ playlist_ids db) then
    failed playlists_tracks_playlist_id_fkey foreign_key_violation
  else if decide (t ∉ track_ids db) then
    failed playlists_tracks_track_id_fkey foreign_key_violation
  else (Rows [PlaylistTrackRow row], with_playlist_track db row).

(** A statement with one integer parameter: the text must read as an
    [INTEGER] before anything is looked up. *)
Definition with_int (p : Param) (db : Db) (k : Z -> Outcome * Db)
  : Outcome * Db :=
  match param_int p with
  | inr z => k z
  | inl e => (Throws e, db)
  end.

(** The store's answer to one statement. *)
Definition exec (q : Sql) (db : Db) : Outcome * Db :=
  match q with
  | SelectTracks =>
      (Rows (TrackRow <$> order_tracks_by_id (tracks db)), db)
  | SelectTrackById id =>
      with_int id db (fun z =>
        (Rows (TrackRow <$> filter (fun t => Track.id t = z) (tracks db)), db))
  | SelectPlaylists =>
      (Rows (PlaylistRow <$> order_playlists_by_id (playlists db)), db)
  | InsertPlaylist name description =>
      insert_playlist name description db
  | SelectPlaylistById id =>
      with_int id db (fun z =>
        (Rows (PlaylistRow <$>
                 filter (fun p => Playlist.id p = z) (playlists db)), db))
  | SelectPlaylistIdById id =>
      with_int id db (fun z =>
        (Rows (IdRow <$> filter (fun i => i = z) (playlist_ids db)), db))
  | SelectPlaylistTracks id =>
      with_int id db (fun z =>
        (Rows (TrackRow <$> order_tracks_by_id (join_playlist_tracks db z)),
         db))
  | SelectTrackIdById id =>
      with_int id db (fun z =>
        (Rows (IdRow <$> filter (fun i => i = z) (track_ids db)), db))
  | InsertPlaylistTrack playlist_id track_id =>
      with_int playlist_id db (fun p =>
        with_int track_id db (fun t => insert_playlist_track p t db))
  end.

(** The schema's constraints, as a property of a state: primary keys,
    [UNIQUE(playlist_id, track_id)], the foreign keys, and identifiers that
    were drawn from their sequence (sequences start at 1 and end at
    [INT4_MAX]). *)
Record consistent (db : Db) : Prop := {
  playlists_pk : NoDup (playlist_ids db);
  tracks_pk : NoDup (track_ids db);
  playlists_tracks_pk : NoDup (playlist_track_ids db);
  playlists_tracks_unique : NoDup (playlist_track_pairs db);
  playlists_tracks_fk :
    forall pt, pt ∈ playlists_tracks db ->
      PlaylistTrack.playlist_id pt ∈ playlist_ids db
      /\ PlaylistTrack.track_id pt ∈ track_ids db;
  playlists_drawn :
    forall i, i ∈ playlist_ids db -> 1 <= i <= playlists_id_seq db;
  tracks_drawn :
    forall i, i ∈ track_ids db -> 1 <= i <= tracks_id_seq db;
  playlists_tracks_drawn :
    forall i, i ∈ playlist_track_ids db ->
      1 <= i <= playlists_tracks_id_seq db;
  playlists_id_seq_nonneg : 0 <= playlists_id_seq db;
  playlists_tracks_id_seq_nonneg : 0 <= playlists_tracks_id_seq db;
  playlists_id_seq_max : playlists_id_seq db <= INT4_MAX;
  tracks_id_seq_max : tracks_id_seq db <= INT4_MAX;
  playlists_tracks_id_seq_max : playlists_tracks_id_seq db <= INT4_MAX;
}.

(* ===================================================================== *)
(** ** The route handlers *)
(* ===================================================================== *)

(** The argument of [res.json(...)]. *)
Inductive Json :=
| JsonRows (rows : list Row)
| JsonRow (row : Row)
| JsonUndefined
| JsonError (error : string).

Record Response := { status : Z; json : Json }.

(** A handler issues [db.query] calls one after the other; each continues
    with what the call gave, rows or an exception, until a response is
    sent. *)
Inductive Handler :=
| Respond (r : Response)
| DbQuery (q : Sql) (k : Outcome -> Handler).

(** [function sendError(res, status, message)]:
    [res.status(status).json({ error: message })] *)
Definition sendError (status : Z) (message : string) : Handler :=
  Respond {| status := status; json := JsonError message |}.

Definition send (status : Z) (body : Json) : Handler :=
  Respond {| status := status; json := body |}.

(** [app.get("/tracks")] *)
Definition get_tracks : Handler :=
  DbQuery SelectTracks (fun result =>
    match result with
    | Rows tracks => send 200 (JsonRows tracks)
    | Throws _ => sendError 500 "Internal server error while fetching tracks"
    end).

(** [app.get("/tracks/:id")] *)
Definition get_track (id : string) : Handler :=
  if negb (isValidId id) then
    sendError 400 "Track ID must be a valid positive integer"
  else
    DbQuery (SelectTrackById (PText id)) (fun result =>
      match result with
      | Rows [] => sendError 404 "Track not found"
      | Rows (track :: _) => send 200 (JsonRow track)
      | Throws _ => sendError 500 "Internal server error while fetching track"
      end).

(** [app.get("/playlists")] *)
Definition get_playlists : Handler :=
  DbQuery SelectPlaylists (fun result =>
    match result with
    | Rows playlists => send 200 (JsonRows playlists)
    | Throws _ =>
        sendError 500 "Internal server error while fetching playlists"
    end).

(** [app.post("/playlists")].  When the insert gives no row,
    [newPlaylist.name] throws inside the [try] and the [catch] answers
    500. *)
Definition post_playlists (body : JsValue) : Handler :=
  if negb (truthy body) then sendError 400 "Request body is required"
  else
    let name := get_field body "name" in
    let description := get_field body "description" in
    if negb (truthy name) || negb (truthy description) then
      sendError 400 "Name and description are required fields"
    else
      match name, description with
      | JString name, JString description =>
          DbQuery (InsertPlaylist name description)
            (fun result =>
               match result with
               | Rows (newPlaylist :: _) => send 201 (JsonRow newPlaylist)
               | Rows [] | Throws _ =>
                   sendError 500
                     "Internal server error while creating playlist"
               end)
      | _, _ => sendError 400 "Name and description must be strings"
      end.

(** [app.get("/playlists/:id")] *)
Definition get_playlist (id : string) : Handler :=
  if negb (isValidId id) then
    sendError 400 "Playlist ID must be a valid positive integer"
  else
    DbQuery (SelectPlaylistById (PText id)) (fun result =>
      match result with
      | Rows [] => sendError 404 "Playlist not found"
      | Rows (playlist :: _) => send 200 (JsonRow playlist)
      | Throws _ =>
          sendError 500 "Internal server error while fetching playlist"
      end).

(** [app.get("/playlists/:id/tracks")] *)
Definition get_playlist_tracks (id : string) : Handler :=
  let failed :=
    sendError 500 "Internal server error while fetching playlist tracks" in
  if negb (isValidId id) then
    sendError 400 "Playlist ID must be a valid positive integer"
  else
    DbQuery (SelectPlaylistIdById (PText id)) (fun playlistCheck =>
      match playlistCheck with
      | Rows [] => sendError 404 "Playlist not found"
      | Rows (_ :: _) =>
          DbQuery (SelectPlaylistTracks (PText id)) (fun result =>
            match result with
            | Rows tracks => send 200 (JsonRows tracks)
            | Throws _ => failed
            end)
      | Throws _ => failed
      end).

(** [app.post("/playlists/:id/tracks")].  The insert sits in a [try] of its
    own: its [catch] answers 400 when [dbError.code === "23505"] and
    rethrows anything else to the outer [catch]. *)
Definition post_playlist_tracks (id : string) (body : JsValue) : Handler :=
  let failed :=
    sendError 500 "Internal server error while adding track to playlist" in
  if negb (isValidId id) then
    sendError 400 "Playlist ID must be a valid positive integer"
  else if negb (truthy body) then sendError 400 "Request body is required"
  else
    match get_field body "trackId" with
    | JUndefined | JNull => sendError 400 "trackId is required in request body"
    | JInt trackId =>
        if trackId <=? 0 then sendError 400 "trackId must be a positive integer"
        else
          DbQuery (SelectPlaylistIdById (PText id)) (fun playlistCheck =>
            match playlistCheck with
            | Rows [] => sendError 404 "Playlist not found"
            | Rows (_ :: _) =>
                DbQuery (SelectTrackIdById (PNumber trackId)) (fun trackCheck =>
                  match trackCheck with
                  | Rows [] => sendError 400 "Track does not exist"
                  | Rows (_ :: _) =>
                      DbQuery
                        (InsertPlaylistTrack (PText id) (PNumber trackId))
                        (fun result =>
                           match result with
                           | Rows (playlistTrack :: _) =>
                               send 201 (JsonRow playlistTrack)
                           | Rows [] => send 201 JsonUndefined
                           | Throws dbError =>
                               if decide (code dbError = Some "23505") then
                                 sendError 400
                                   "Track is already in this playlist"
                               else failed
                           end)
                  | Throws _ => failed
                  end)
            | Throws _ => failed
            end)
    | _ => sendError 400 "trackId must be a positive integer"
    end.

Definition bad_request (message : string) : Response :=
  {| status := 400; json := JsonError message |}.

Definition is_playlist_track_insert (q : Sql) : bool :=
  match q with InsertPlaylistTrack _ _ => true | _ => false end.

(** The violation of [UNIQUE(playlist_id, track_id)], as the driver
    reports it. *)
Definition is_pair_violation (e : DbError) : Prop :=
  code e = Some unique_violation
  /\ constraint e = Some playlists_tracks_playlist_id_track_id_key.


Definition server_error (message : string) : Response :=
  {| status := 500; json := JsonError message |}.

(** [sendError(res, 404, message)] *)
Definition not_found (message : string) : Response :=
  {| status := 404; json := JsonError message |}.


(* ===================================================================== *)
(** ** Running a handler against the store *)
(* ===================================================================== *)

(** The storage layer can fail for reasons of its own (a lost connection,
    a server that shuts down).  [faults] says, call by call, whether the
    next [db.query] fails that way and with which error; such a call changes
    nothing.  Calls beyond the end of the list are answered by the store:
    [run []] is a run in which the store answers every call, with rows or
    with the error [exec] gives. *)
Definition Faults := list (option DbError).

Definition answer (faults : Faults) (q : Sql) (db : Db) : Outcome * Db :=
  match faults with
  | Some e :: _ => (Throws e, db)
  | _ => exec q db
  end.

(** The response, the state left behind, and the calls made with what each
    one gave. *)
Fixpoint run (faults : Faults) (h : Handler) (db : Db)
  : Response * Db * list (Sql * Outcome) :=
  match h with
  | Respond r => (r, db, [])
  | DbQuery q k =>
      let '(result, db') := answer faults q db in
      let '(r, db'', calls) := run (tail faults) (k result) db' in
      (r, db'', (q, result) :: calls)
  end.

Definition response_of (x : Response * Db * list (Sql * Outcome)) : Response :=
  x.1.1.
Definition state_of (x : Response * Db * list (Sql * Outcome)) : Db := x.1.2.
Definition calls_of (x : Response * Db * list (Sql * Outcome))
  : list (Sql * Outcome) := x.2.

(** The seven routes and their inputs. *)
Inductive Request :=
| GET_tracks
| GET_track (id : string)
| GET_playlists
| POST_playlists (body : JsValue)
| GET_playlist (id : string)
| GET_playlist_tracks (id : string)
| POST_playlist_tracks (id : string) (body : JsValue).

Definition handler (req : Request) : Handler :=
  match req with
  | GET_tracks => get_tracks
  | GET_track id => get_track id
  | GET_playlists => get_playlists
  | POST_playlists body => post_playlists body
  | GET_playlist id => get_playlist id
  | GET_playlist_tracks id => get_playlist_tracks id
  | POST_playlist_tracks id body => post_playlist_tracks id body
  end.

Definition is_get (req : Request) : bool :=
  match req with
  | POST_playlists _ | POST_playlist_tracks _ _ => false
  | _ => true
  end.

(** The associations of playlist [p] with track [t]. *)
Definition associations (db : Db) (p t : Z) : list PlaylistTrack.t :=
  filter (fun pt => PlaylistTrack.playlist_id pt = p
                    /\ PlaylistTrack.track_id pt = t)
         (playlists_tracks db).


(* ===================================================================== *)
(** ** Vocabulary for the properties of the handlers *)
(* ===================================================================== *)

(** The body of POST /playlists passes validation: [name] and
    [description] are non-empty strings. *)
Definition playlist_fields (body : JsValue) (name description : string) : Prop :=
  get_field body "name" = JString name
  /\ get_field body "description" = JString description
  /\ name <> EmptyString /\ description <> EmptyString.

(** The refusals that come from the types of the schema, not from its
    constraints: text that does not spell an integer, an integer that
    [INTEGER] cannot hold, a sequence at its end, text with U+0000. *)
Definition is_type_error (e : DbError) : Prop :=
  e = syntax_error \/ e = out_of_range
  \/ e = sequence_exhausted \/ e = invalid_byte_sequence.

(** [after] has the rows of [before], in place, and possibly more after
    them; its sequences are not behind. *)
Record grown (before after : Db) : Prop := {
  same_tracks : tracks after = tracks before;
  more_playlists : playlists before `prefix_of` playlists after;
  more_playlists_tracks :
    playlists_tracks before `prefix_of` playlists_tracks after;
  playlists_id_seq_on : playlists_id_seq before <= playlists_id_seq after;
  tracks_id_seq_same : tracks_id_seq after = tracks_id_seq before;
  playlists_tracks_id_seq_on :
    playlists_tracks_id_seq before <= playlists_tracks_id_seq after;
}.


(* ===================================================================== *)
(** ** Example states *)
(* ===================================================================== *)

(** Two playlists and three tracks, inserted in this order; track 3 is in
    playlist 1. *)
Definition jukebox : Db :=
  {| playlists :=
       [ {| Playlist.id := 1; Playlist.name := "Chill Vibes";
            Playlist.description := "Relaxing tracks" |};
         {| Playlist.id := 2; Playlist.name := "Workout Pump";
            Playlist.description := "High-energy songs" |} ];
     tracks :=
       [ {| Track.id := 1; Track.name := "Imagine";
            Track.duration_ms := 183000 |};
         {| Track.id := 2; Track.name := "Respect";
            Track.duration_ms := 147000 |};
         {| Track.id := 3; Track.name := "Creep";
            Track.duration_ms := 238000 |} ];
     playlists_tracks :=
       [ {| PlaylistTrack.id := 1; PlaylistTrack.playlist_id := 1;
            PlaylistTrack.track_id := 3 |} ];
     playlists_id_seq := 2;
     tracks_id_seq := 3;
     playlists_tracks_id_seq := 1 |}.

(** The same rows, loaded with their identifiers given explicitly (as a
    restore does): no sequence was ever drawn from. *)
Definition restored : Db :=
  {| playlists := playlists jukebox;
     tracks := tracks jukebox;
     playlists_tracks := playlists_tracks jukebox;
     playlists_id_seq := 0;
     tracks_id_seq := 0;
     playlists_tracks_id_seq := 0 |}.

(** The same rows again, after so many inserts (refused ones draw too) that
    the sequences behind [playlists.id] and [playlists_tracks.id] gave
    their last value. *)
Definition exhausted : Db :=
  {| playlists := playlists jukebox;
     tracks := tracks jukebox;
     playlists_tracks := playlists_tracks jukebox;
     playlists_id_seq := INT4_MAX;
     tracks_id_seq := 3;
     playlists_tracks_id_seq := INT4_MAX |}.

(** The rows of [jukebox] stored in another order; its one association was
    inserted after six others, deleted since. *)
Definition reordered : Db :=
  {| playlists := reverse (playlists jukebox);
     tracks := reverse (tracks jukebox);
     playlists_tracks :=
       [ {| PlaylistTrack.id := 7; PlaylistTrack.playlist_id := 1;
            PlaylistTrack.track_id := 3 |} ];
     playlists_id_seq := 2;
     tracks_id_seq := 3;
     playlists_tracks_id_seq := 7 |}.

(** [{ "trackId": t }] *)
Definition trackId_body (t : Z) : JsValue := JObject {[ "trackId" := JInt t ]}.

(** [{ "name": n, "description": d }] *)
Definition playlist_body (n d : string) : JsValue :=
  JObject (<[ "name" := JString n ]> {[ "description" := JString d ]}).

(* ===================================================================== *)
(** ** Facts about numbers and their decimal text *)
(* ===================================================================== *)

Lemma digit_val_range c d : JsNum.digit_val c = Some d -> 0 <= d <= 9.
Proof.
  unfold JsNum.digit_val. intros H.
  destruct (48 <=? JsNum.code c) eqn:E1; destruct (JsNum.code c <=? 57) eqn:E2;
    simpl in H; inversion H; subst; lia.
Qed.

Lemma digit_char_val d : 0 <= d <= 9 -> JsNum.digit_val (JsNum.digit_char d) = Some d.
Proof.
  intros H.
  assert (d = 0 \/ d = 1 \/ d = 2 \/ d = 3 \/ d = 4 \/ d = 5 \/ d = 6
          \/ d = 7 \/ d = 8 \/ d = 9) as Hd by lia.
  repeat (destruct Hd as [-> | Hd]; [reflexivity |]). subst. reflexivity.
Qed.

Lemma digit_val_char c d : JsNum.digit_val c = Some d -> JsNum.digit_char d = c.
Proof.
  intros H. pose proof (digit_val_range _ _ H) as Hr.
  unfold JsNum.digit_val in H.
  destruct ((48 <=? JsNum.code c) && (JsNum.code c <=? 57)) eqn:E; [| discriminate].
  inversion H; subst. unfold JsNum.digit_char, JsNum.code.
  replace (48 + (Z.of_N (N_of_ascii c) - 48)) with (Z.of_N (N_of_ascii c)) by lia.
  rewrite N2Z.id. apply ascii_N_embedding.
Qed.

Lemma string_app_assoc (a b c : string) : (a ++ b) ++ c = a ++ (b ++ c).
Proof. induction a as [| x a IH]; [reflexivity |]. simpl. now rewrite IH. Qed.

Lemma decimal_go_acc fuel n acc :
  JsNum.decimal_go fuel n acc = JsNum.decimal_go fuel n EmptyString ++ acc.
Proof.
  revert n acc. induction fuel as [| fuel IH]; intros n acc; simpl; [reflexivity |].
  destruct (n / 10 =? 0); [reflexivity |].
  rewrite (IH _ (String _ acc)), (IH _ (String _ EmptyString)).
  rewrite string_app_assoc. reflexivity.
Qed.

Lemma log2_div10 n : 10 <= n -> Z.log2 (n / 10) < Z.log2 n.
Proof.
  intros H.
  assert (0 < n / 10) as Hq by (apply Z.div_str_pos; lia).
  assert (2 * (n / 10) <= n) as Hle by (pose proof (Z.mul_div_le n 10); lia).
  pose proof (Z.log2_le_mono _ _ Hle) as Hm.
  rewrite Z.log2_double in Hm by lia. lia.
Qed.

Lemma decimal_go_fuel f1 f2 n :
  0 <= n -> Z.log2 n < Z.of_nat f1 -> Z.log2 n < Z.of_nat f2 ->
  JsNum.decimal_go f1 n EmptyString = JsNum.decimal_go f2 n EmptyString.
Proof.
  revert f2 n. induction f1 as [| f1 IH]; intros f2 n Hn H1 H2.
  - pose proof (Z.log2_nonneg n). lia.
  - destruct f2 as [| f2]; [pose proof (Z.log2_nonneg n); lia |].
    simpl. destruct (n / 10 =? 0) eqn:E; [reflexivity |].
    apply Z.eqb_neq in E.
    assert (10 <= n) as H10.
    { destruct (Z_lt_le_dec n 10) as [Hlt | Hge]; [| exact Hge].
      rewrite Z.div_small in E by lia. lia. }
    pose proof (log2_div10 n H10) as Hl.
    rewrite (decimal_go_acc f1), (decimal_go_acc f2).
    f_equal. apply IH; [apply Z.div_pos; lia | lia | lia].
Qed.

Lemma decimal_small n : 0 <= n < 10 -> JsNum.decimal n = String (JsNum.digit_char n) EmptyString.
Proof.
  intros H. unfold JsNum.decimal. simpl.
  rewrite Z.div_small by lia. rewrite Z.mod_small by lia. reflexivity.
Qed.

Lemma decimal_step n :
  10 <= n ->
  JsNum.decimal n = JsNum.decimal (n / 10) ++ String (JsNum.digit_char (n mod 10)) EmptyString.
Proof.
  intros H. unfold JsNum.decimal at 1. simpl.
  assert (0 < n / 10) as Hq by (apply Z.div_str_pos; lia).
  destruct (n / 10 =? 0) eqn:E; [apply Z.eqb_eq in E; lia |].
  rewrite decimal_go_acc. f_equal.
  pose proof (log2_div10 n H) as Hl. pose proof (Z.log2_nonneg (n / 10)).
  apply decimal_go_fuel; lia.
Qed.

Lemma read_digits_snoc s c d a :
  all_digits s = true -> JsNum.digit_val c = Some d ->
  JsNum.read_digits (s ++ String c EmptyString) a = 10 * JsNum.read_digits s a + d.
Proof.
  revert a. induction s as [| c' s IH]; intros a Hs Hc; simpl.
  - rewrite Hc. reflexivity.
  - simpl in Hs. destruct (JsNum.digit_val c') as [d' |]; [| discriminate].
    apply IH; assumption.
Qed.

Lemma all_digits_app s1 s2 :
  all_digits (s1 ++ s2) = all_digits s1 && all_digits s2.
Proof.
  induction s1 as [| c s1 IH]; simpl; [reflexivity |].
  destruct (JsNum.digit_val c); [exact IH | reflexivity].
Qed.

Lemma decimal_digits n : all_digits (JsNum.decimal n) = true.
Proof.
  destruct (Z_lt_le_dec n 0) as [Hneg | Hn].
  - unfold JsNum.decimal. rewrite Z.log2_nonpos by lia. simpl.
    pose proof (Z.mod_pos_bound n 10 ltac:(lia)) as Hm.
    destruct (n / 10 =? 0); simpl; rewrite digit_char_val by lia; reflexivity.
  - pattern n. apply Z_lt_induction; [| exact Hn].
    clear n Hn. intros n IH.
    destruct (Z_lt_le_dec n 10) as [Hlt | Hge].
    + destruct (Z_lt_le_dec n 0) as [Hneg | Hpos].
      * unfold JsNum.decimal. rewrite Z.log2_nonpos by lia. simpl.
        pose proof (Z.mod_pos_bound n 10 ltac:(lia)) as Hm.
        destruct (n / 10 =? 0); simpl; rewrite digit_char_val by lia; reflexivity.
      * rewrite decimal_small by lia. simpl. rewrite digit_char_val by lia. reflexivity.
    + rewrite decimal_step by lia. rewrite all_digits_app.
      rewrite IH.
      * simpl. pose proof (Z.mod_pos_bound n 10 ltac:(lia)).
        rewrite digit_char_val by lia. reflexivity.
      * pose proof (Z.div_pos n 10). pose proof (Z.div_lt n 10). lia.
Qed.

Lemma read_digits_decimal n : 0 <= n -> JsNum.read_digits (JsNum.decimal n) 0 = n.
Proof.
  intros Hn. generalize Hn. pattern n. apply Z_lt_induction; [| exact Hn].
  clear n Hn. intros n IH Hn.
  destruct (Z_lt_le_dec n 10) as [Hlt | Hge].
  - destruct (Z_lt_le_dec n 0) as [Hneg | Hpos].
    + lia.
    + rewrite decimal_small by lia. simpl. rewrite digit_char_val by lia. lia.
  - rewrite decimal_step by lia.
    pose proof (Z.mod_pos_bound n 10 ltac:(lia)).
    rewrite (read_digits_snoc _ _ (n mod 10)).
    + rewrite IH.
      * pose proof (Z.div_mod n 10). lia.
      * pose proof (Z.div_pos n 10). pose proof (Z.div_lt n 10). lia.
      * apply Z.div_pos; lia.
    + apply decimal_digits.
    + apply digit_char_val. lia.
Qed.

Lemma string_length_app (a b : string) :
  String.length (a ++ b) = (String.length a + String.length b)%nat.
Proof. induction a as [| x a IH]; [reflexivity |]. simpl. now rewrite IH. Qed.

Lemma decimal_length n k :
  0 <= n < 10 ^ Z.of_nat (S k) -> (String.length (JsNum.decimal n) <= S k)%nat.
Proof.
  revert n. induction k as [| k IH]; intros n Hn.
  - change (10 ^ Z.of_nat 1) with 10 in Hn. rewrite decimal_small by lia. simpl. lia.
  - destruct (Z_lt_le_dec n 10) as [Hlt | Hge].
    + rewrite decimal_small by lia. simpl. lia.
    + rewrite decimal_step by lia. rewrite string_length_app. simpl.
      assert (0 <= n / 10 < 10 ^ Z.of_nat (S k)) as Hq.
      { split; [apply Z.div_pos; lia |].
        apply Z.div_lt_upper_bound; [lia |].
        replace (Z.of_nat (S (S k))) with (Z.of_nat (S k) + 1) in Hn by lia.
        rewrite Z.pow_add_r in Hn by lia. lia. }
      specialize (IH _ Hq). lia.
Qed.

Lemma decimal_head n :
  0 < n ->
  exists c d rest, JsNum.decimal n = String c rest
                   /\ JsNum.digit_val c = Some d /\ 0 < d.
Proof.
  intros Hn. assert (0 <= n) as Hn0 by lia. revert Hn.
  pattern n. apply Z_lt_induction; [| exact Hn0].
  clear n Hn0. intros n IH Hn.
  destruct (Z_lt_le_dec n 10) as [Hlt | Hge].
  - rewrite decimal_small by lia. exists (JsNum.digit_char n), n, EmptyString.
    rewrite digit_char_val by lia. auto.
  - rewrite decimal_step by lia.
    assert (0 < n / 10) as Hq by (apply Z.div_str_pos; lia).
    destruct (IH (n / 10)) as (c & d & rest & -> & Hc & Hd).
    + pose proof (Z.div_lt n 10). lia.
    + exact Hq.
    + simpl. eauto 10.
Qed.

Lemma decimal_positive n : 0 < n -> is_positive_decimal (JsNum.decimal n) = true.
Proof.
  intros Hn. pose proof (decimal_digits n) as Hall.
  destruct (decimal_head n Hn) as (c & d & rest & E & Hc & Hd).
  rewrite E in *. unfold is_positive_decimal. rewrite Hc, Hall.
  apply andb_true_intro. split; [apply Z.ltb_lt; exact Hd | reflexivity].
Qed.

Lemma decimal_read_digits_from s a :
  0 < a -> all_digits s = true ->
  JsNum.decimal (JsNum.read_digits s a) = JsNum.decimal a ++ s.
Proof.
  revert a. induction s as [| c s IH]; intros a Ha Hs; simpl.
  - clear. induction (JsNum.decimal a) as [| x l IHl]; [reflexivity |].
    simpl. now rewrite <- IHl.
  - simpl in Hs. destruct (JsNum.digit_val c) as [d |] eqn:Hc; [| discriminate].
    pose proof (digit_val_range _ _ Hc) as Hd.
    rewrite IH by (lia || assumption).
    rewrite (decimal_step (10 * a + d)) by lia.
    replace ((10 * a + d) / 10) with a
      by (apply (Z.div_unique _ 10 a d); lia).
    replace ((10 * a + d) mod 10) with d
      by (apply (Z.mod_unique _ 10 a d); lia).
    rewrite (digit_val_char _ _ Hc). rewrite string_app_assoc. reflexivity.
Qed.

Lemma decimal_read_digits s :
  is_positive_decimal s = true -> JsNum.decimal (JsNum.read_digits s 0) = s.
Proof.
  unfold is_positive_decimal. destruct s as [| c s]; [discriminate |].
  destruct (JsNum.digit_val c) as [d |] eqn:Hc; [| discriminate].
  intros H. apply andb_prop in H as [Hd Hs]. apply Z.ltb_lt in Hd.
  simpl in Hs. rewrite Hc in Hs. simpl. rewrite Hc.
  pose proof (digit_val_range _ _ Hc).
  replace (10 * 0 + d) with d by lia.
  rewrite decimal_read_digits_from by (lia || assumption).
  rewrite decimal_small by lia. rewrite (digit_val_char _ _ Hc). reflexivity.
Qed.

Lemma round53_small m : 0 <= m < 2 ^ 53 -> JsNum.round53 m = m.
Proof.
  intros H. unfold JsNum.round53.
  assert (Z.log2 m < 53) as Hl.
  { destruct (Z.eq_dec m 0) as [-> | Hne]; [reflexivity |].
    apply Z.log2_lt_pow2; lia. }
  destruct (Z.log2 m + 1 <=? 53) eqn:E; [reflexivity |].
  apply Z.leb_gt in E. lia.
Qed.

Lemma round53_large m : 2 ^ 53 <= m -> 2 ^ 53 <= JsNum.round53 m.
Proof.
  intros H. unfold JsNum.round53.
  destruct (Z.log2 m + 1 <=? 53) eqn:E; [exact H |].
  apply Z.leb_gt in E.
  set (e := Z.log2 m + 1 - 53).
  assert (0 < e) as He by (unfold e; lia).
  assert (0 < m) as Hm by lia.
  pose proof (Z.log2_spec m Hm) as [Hlo _].
  replace (Z.log2 m) with (52 + e) in Hlo by (unfold e; lia).
  rewrite Z.pow_add_r in Hlo by lia.
  assert (0 < 2 ^ e) as Hp by (apply Z.pow_pos_nonneg; lia).
  assert (2 ^ 52 <= m / 2 ^ e) as Hq.
  { apply Z.div_le_lower_bound; lia. }
  assert (2 <= 2 ^ e) as Hp2.
  { change 2 with (2 ^ 1) at 1. apply Z.pow_le_mono_r; lia. }
  change (2 ^ 53) with (2 ^ 52 * 2).
  destruct ((2 ^ (e - 1) <? m mod 2 ^ e)
            || (m mod 2 ^ e =? 2 ^ (e - 1)) && Z.odd (m / 2 ^ e)); nia.
Qed.

Lemma round53_pos m : 0 < m -> 0 < JsNum.round53 m.
Proof.
  intros H. destruct (Z_lt_le_dec m (2 ^ 53)) as [Hlt | Hge].
  - rewrite round53_small; lia.
  - pose proof (round53_large m Hge). lia.
Qed.

Lemma shortest_from_small j z : 0 < z < 2 ^ 53 -> JsNum.shortest_from j z = z.
Proof.
  intros Hz. induction j as [| j IH].
  all: unfold JsNum.shortest_from; fold JsNum.shortest_from.
  all: set (p := 10 ^ Z.of_nat _).
  all: assert (0 < p) as Hp by (apply Z.pow_pos_nonneg; lia).
  all: pose proof (Z.mul_div_le z p Hp) as Ha.
  all: pose proof (Z.mul_succ_div_gt z p Hp) as Hb.
  all: replace (z `div` p * p) with (p * z `div` p) by lia.
  all: replace ((z `div` p + 1) * p) with (p * Z.succ (z `div` p)) by lia.
  all: assert ((JsNum.round53 (p * Z.succ (z `div` p)) =? z) = false) as ->.
  1, 3: apply Z.eqb_neq;
    destruct (Z_lt_le_dec (p * Z.succ (z `div` p)) (2 ^ 53)) as [Hlt | Hge];
    [rewrite round53_small; lia | pose proof (round53_large _ Hge); lia].
  all: assert (0 <= z `div` p) as Hlo by (apply Z.div_pos; lia).
  all: rewrite round53_small by nia.
  all: rewrite andb_false_r.
  all: destruct ((0 <? z `div` p) && (p * (z `div` p) =? z)) eqn:E; [| try assumption; reflexivity].
  all: apply andb_prop in E as [_ E]; apply Z.eqb_eq in E; exact E.
Qed.

Lemma shortest_from_pos j z : 0 < z -> 0 < JsNum.shortest_from j z.
Proof.
  intros Hz. induction j as [| j IH].
  all: unfold JsNum.shortest_from; fold JsNum.shortest_from.
  all: set (p := 10 ^ Z.of_nat _).
  all: assert (0 < p) as Hp by (apply Z.pow_pos_nonneg; lia).
  all: assert (0 <= z `div` p) as Hlo by (apply Z.div_pos; lia).
  all: destruct (0 <? z `div` p) eqn:E; [apply Z.ltb_lt in E | apply Z.ltb_ge in E].
  all: simpl.
  all: repeat match goal with |- context [if ?b then _ else _] => destruct b end.
  all: try nia; try assumption.
Qed.
Lemma digit_not_whitespace c d :
  JsNum.digit_val c = Some d -> JsNum.is_whitespace c = false.
Proof.
  unfold JsNum.digit_val, JsNum.is_whitespace. intros H.
  destruct ((48 <=? JsNum.code c) && (JsNum.code c <=? 57)) eqn:E; [| discriminate].
  apply andb_prop in E as [E1 E2]. apply Z.leb_le in E1, E2.
  repeat (rewrite (proj2 (Z.eqb_neq _ _)) by lia). reflexivity.
Qed.

Lemma digit_not_sign c d s :
  JsNum.digit_val c = Some d ->
  JsNum.split_sign (String c s) = (false, String c s).
Proof.
  intros H. unfold JsNum.split_sign.
  destruct (Ascii.eqb c "-") eqn:E1; [apply Ascii.eqb_eq in E1; subst; discriminate |].
  destruct (Ascii.eqb c "+") eqn:E2; [apply Ascii.eqb_eq in E2; subst; discriminate |].
  reflexivity.
Qed.

Lemma to_double_small m : 0 <= m < 2 ^ 53 -> JsNum.to_double m = JsNum.Finite m.
Proof.
  intros H. unfold JsNum.to_double. rewrite round53_small by exact H.
  destruct (2 ^ 1024 <=? m) eqn:E; [| reflexivity].
  apply Z.leb_le in E. assert (2 ^ 53 < 2 ^ 1024) by (apply Z.pow_lt_mono_r; lia). lia.
Qed.

(** [parseInt] on text that starts with a digit reads the digits. *)
Lemma parseInt_digits c d s :
  JsNum.digit_val c = Some d ->
  JsNum.parseInt (String c s) = JsNum.to_double (JsNum.read_digits (String c s) 0).
Proof.
  intros H. unfold JsNum.parseInt. simpl JsNum.skip_whitespace.
  rewrite (digit_not_whitespace _ _ H), (digit_not_sign _ _ _ H).
  simpl. rewrite H. reflexivity.
Qed.

Lemma parseInt_positive_decimal s :
  is_positive_decimal s = true ->
  JsNum.parseInt s = JsNum.to_double (JsNum.read_digits s 0).
Proof.
  destruct s as [| c s]; [discriminate |]. unfold is_positive_decimal.
  destruct (JsNum.digit_val c) as [d |] eqn:Hc; [| discriminate].
  intros _. exact (parseInt_digits _ _ _ Hc).
Qed.

Lemma read_digits_mono s a : 0 <= a -> a <= JsNum.read_digits s a.
Proof.
  revert a. induction s as [| c s IH]; intros a Ha; simpl; [lia |].
  destruct (JsNum.digit_val c) as [d |] eqn:Hc; [| lia].
  pose proof (digit_val_range _ _ Hc). specialize (IH (10 * a + d)). lia.
Qed.

Lemma positive_decimal_value s :
  is_positive_decimal s = true -> 0 < JsNum.read_digits s 0.
Proof.
  destruct s as [| c s]; [discriminate |]. unfold is_positive_decimal.
  destruct (JsNum.digit_val c) as [d |] eqn:Hc; [| discriminate].
  intros H. apply andb_prop in H as [Hd _]. apply Z.ltb_lt in Hd.
  simpl. rewrite Hc. pose proof (read_digits_mono s (10 * 0 + d)). lia.
Qed.

Lemma to_double_gt_zero m : 0 < m -> JsNum.gt_zero (JsNum.to_double m) = true.
Proof.
  intros H. unfold JsNum.to_double.
  destruct (2 ^ 1024 <=? JsNum.round53 m); [reflexivity |].
  simpl. apply Z.ltb_lt. apply round53_pos. exact H.
Qed.

Lemma to_double_not_NaN m : JsNum.isNaN (JsNum.to_double m) = false.
Proof. unfold JsNum.to_double. destruct (2 ^ 1024 <=? JsNum.round53 m); reflexivity. Qed.

(** Below [10^21], [toString] of a positive integer-valued double is the
    plain decimal text of its shortest representative. *)
Lemma toString_small z :
  0 < z < 2 ^ 53 -> JsNum.toString (JsNum.Finite z) = JsNum.decimal z.
Proof.
  intros H. unfold JsNum.toString.
  destruct (z =? 0) eqn:E0; [apply Z.eqb_eq in E0; lia |].
  destruct (z <? 0) eqn:E1; [apply Z.ltb_lt in E1; lia |].
  unfold JsNum.positive_toString, JsNum.shortest.
  rewrite shortest_from_small by exact H.
  assert (String.length (JsNum.decimal z) <= 16)%nat as Hlen.
  { apply (decimal_length z 15). split; [lia |].
    assert (2 ^ 53 < 10 ^ Z.of_nat 16) by (vm_compute; reflexivity). lia. }
  destruct (Z.of_nat (String.length (JsNum.decimal z)) <=? 21) eqn:E; [reflexivity |].
  apply Z.leb_gt in E. lia.
Qed.

Lemma decimal_nonempty n : JsNum.decimal n <> EmptyString.
Proof.
  unfold JsNum.decimal. simpl. destruct (n / 10 =? 0); [discriminate |].
  rewrite decimal_go_acc. destruct (JsNum.decimal_go _ _ EmptyString); discriminate.
Qed.

(** A digit followed by something that is not a digit parses to that digit. *)
Lemma parseInt_one_digit c d x rest :
  JsNum.digit_val c = Some d -> JsNum.digit_val x = None ->
  JsNum.parseInt (String c (String x rest)) = JsNum.Finite d.
Proof.
  intros Hc Hx. rewrite (parseInt_digits _ _ _ Hc). simpl. rewrite Hc, Hx.
  pose proof (digit_val_range _ _ Hc). apply to_double_small.
  assert (9 < 2 ^ 53) by (vm_compute; reflexivity). lia.
Qed.

(** The exponent form never reads back as the number it prints. *)
Lemma valid_not_exponent z s :
  0 < z -> JsNum.positive_toString z = s -> JsNum.parseInt s = JsNum.Finite z ->
  s = JsNum.decimal (JsNum.shortest z).
Proof.
  intros Hz Hs Hp. unfold JsNum.positive_toString in Hs.
  set (c := JsNum.shortest z) in *.
  destruct (Z.of_nat (String.length (JsNum.decimal c)) <=? 21) eqn:E; [congruence |].
  exfalso. apply Z.leb_gt in E.
  set (w := JsNum.strip_trailing_zeros _ c) in Hs.
  pose proof (decimal_digits w) as Hall. pose proof (decimal_nonempty w) as Hne.
  destruct (JsNum.decimal w) as [| d rest]; [congruence |].
  simpl in Hall. destruct (JsNum.digit_val d) as [dv |] eqn:Hd; [| discriminate].
  assert (JsNum.parseInt s = JsNum.Finite dv) as Hp'.
  { destruct rest; subst s; simpl; apply (parseInt_one_digit _ _ _ _ Hd); reflexivity. }
  rewrite Hp in Hp'. inversion Hp'; subst dv.
  pose proof (digit_val_range _ _ Hd) as Hr.
  assert (9 < 2 ^ 53) as H9 by (vm_compute; reflexivity).
  unfold c, JsNum.shortest in E. rewrite shortest_from_small in E by lia.
  rewrite decimal_small in E by lia. simpl in E. lia.
Qed.

Lemma isValidId_iff s :
  isValidId s = true <->
  is_positive_decimal s = true
  /\ JsNum.toString (JsNum.to_double (JsNum.read_digits s 0)) = s.
Proof.
  unfold isValidId. split.
  - intros H. apply andb_prop in H as [H Heq]. apply andb_prop in H as [Hnan Hpos].
    apply String.eqb_eq in Heq.
    assert (is_positive_decimal s = true) as Hdec.
    { destruct (JsNum.parseInt s) as [| neg | z] eqn:Hx; [discriminate | |].
      - destruct neg; [discriminate |]. simpl in Heq. subst s.
        vm_compute in Hx. discriminate.
      - simpl in Hpos. apply Z.ltb_lt in Hpos. unfold JsNum.toString in Heq.
        destruct (z =? 0) eqn:E0; [apply Z.eqb_eq in E0; lia |].
        destruct (z <? 0) eqn:E1; [apply Z.ltb_lt in E1; lia |].
        rewrite (valid_not_exponent z s Hpos Heq Hx).
        apply decimal_positive. apply shortest_from_pos. exact Hpos. }
    split; [exact Hdec |].
    rewrite <- (parseInt_positive_decimal s Hdec). exact Heq.
  - intros [Hdec Heq]. rewrite (parseInt_positive_decimal s Hdec).
    rewrite to_double_not_NaN, to_double_gt_zero, Heq, String.eqb_refl;
      [reflexivity | apply positive_decimal_value; exact Hdec].
Qed.

Lemma isValidId_safe s :
  is_positive_decimal s = true ->
  JsNum.read_digits s 0 <= MAX_SAFE_INTEGER ->
  isValidId s = true.
Proof.
  intros Hdec Hmax. apply isValidId_iff. split; [exact Hdec |].
  pose proof (positive_decimal_value s Hdec) as Hpos.
  assert (MAX_SAFE_INTEGER < 2 ^ 53) as Hm by (vm_compute; reflexivity).
  rewrite to_double_small by lia. rewrite toString_small by lia.
  apply decimal_read_digits. exact Hdec.
Qed.

Lemma isValidId_decimal n :
  0 < n <= MAX_SAFE_INTEGER -> isValidId (JsNum.decimal n) = true.
Proof.
  intros H. apply isValidId_safe.
  - apply decimal_positive. lia.
  - rewrite read_digits_decimal by lia. lia.
Qed.

Lemma digit_not_space c d : JsNum.digit_val c = Some d -> is_space c = false.
Proof.
  unfold JsNum.digit_val, is_space. intros H.
  destruct ((48 <=? JsNum.code c) && (JsNum.code c <=? 57)) eqn:E; [| discriminate].
  apply andb_prop in E as [E1 E2]. apply Z.leb_le in E1, E2.
  repeat (rewrite (proj2 (Z.eqb_neq _ _)) by lia). reflexivity.
Qed.

Lemma drop_all_digits s : all_digits s = true -> drop_digits s = EmptyString.
Proof.
  induction s as [| c s IH]; simpl; [reflexivity |].
  destruct (JsNum.digit_val c); [exact IH | discriminate].
Qed.

(** The server reads a validated identifier as the integer it spells. *)
Lemma int_of_text_positive_decimal s :
  is_positive_decimal s = true ->
  int_of_text s = Some (JsNum.read_digits s 0).
Proof.
  destruct s as [| c s]; [discriminate |]. unfold is_positive_decimal.
  destruct (JsNum.digit_val c) as [d |] eqn:Hc; [| discriminate].
  intros H. apply andb_prop in H as [_ Hall].
  unfold int_of_text. simpl skip_spaces.
  rewrite (digit_not_space _ _ Hc), (digit_not_sign _ _ _ Hc).
  rewrite (drop_all_digits _ Hall). simpl. rewrite Hc. reflexivity.
Qed.

Lemma isValidId_int_of_text s :
  isValidId s = true ->
  exists p, int_of_text s = Some p /\ 0 < p.
Proof.
  intros H. apply isValidId_iff in H as [Hdec _].
  exists (JsNum.read_digits s 0).
  split; [apply int_of_text_positive_decimal | apply positive_decimal_value]; exact Hdec.
Qed.

Lemma valid_id_is_decimal id p :
  isValidId id = true -> int_of_text id = Some p -> id = JsNum.decimal p.
Proof.
  intros Hid Hp. apply isValidId_iff in Hid as [Hdec _].
  rewrite (int_of_text_positive_decimal id Hdec) in Hp. inversion Hp.
  symmetry. apply decimal_read_digits. exact Hdec.
Qed.

Lemma decimal_int_of_text i : 0 < i -> int_of_text (JsNum.decimal i) = Some i.
Proof.
  intros Hi. rewrite int_of_text_positive_decimal by (apply decimal_positive; lia).
  rewrite read_digits_decimal by lia. reflexivity.
Qed.

(** ** Parameters, as the server reads them *)

Lemma has_nul_skip_spaces s : has_nul (skip_spaces s) = has_nul s.
Proof.
  induction s as [| c s IH]; [reflexivity |]. simpl.
  destruct (is_space c) eqn:E; [| reflexivity]. rewrite IH.
  destruct (JsNum.code c =? 0) eqn:E0; [| reflexivity].
  apply Z.eqb_eq in E0. unfold is_space in E. rewrite E0 in E. discriminate E.
Qed.

Lemma has_nul_drop_digits s : has_nul (drop_digits s) = has_nul s.
Proof.
  induction s as [| c s IH]; [reflexivity |]. simpl.
  destruct (JsNum.digit_val c) as [d |] eqn:E; [| reflexivity]. rewrite IH.
  destruct (JsNum.code c =? 0) eqn:E0; [| reflexivity].
  apply Z.eqb_eq in E0. unfold JsNum.digit_val in E. rewrite E0 in E.
  discriminate E.
Qed.

Lemma has_nul_split_sign s : has_nul (JsNum.split_sign s).2 = has_nul s.
Proof.
  destruct s as [| c s]; [reflexivity |]. unfold JsNum.split_sign.
  destruct (Ascii.eqb c "-") eqn:E1; [apply Ascii.eqb_eq in E1; subst; reflexivity |].
  destruct (Ascii.eqb c "+") eqn:E2; [apply Ascii.eqb_eq in E2; subst; reflexivity |].
  reflexivity.
Qed.

(** Text that spells an integer holds no U+0000. *)
Lemma int_of_text_no_nul text v : int_of_text text = Some v -> has_nul text = false.
Proof.
  unfold int_of_text. intros H.
  rewrite <- has_nul_skip_spaces, <- has_nul_split_sign.
  destruct (JsNum.split_sign (skip_spaces text)) as [negative s]. cbn [snd].
  destruct (JsNum.starts_with_digit s); [| discriminate H]. cbn [andb] in H.
  destruct (String.eqb (skip_spaces (drop_digits s)) EmptyString) eqn:E;
    [| discriminate H].
  apply String.eqb_eq in E.
  rewrite <- has_nul_drop_digits, <- has_nul_skip_spaces, E. reflexivity.
Qed.

Lemma int4_of_text_inr text v :
  int4_of_text text = inr v <->
  int_of_text text = Some v /\ INT4_MIN <= v <= INT4_MAX.
Proof.
  unfold int4_of_text.
  destruct (int_of_text text) as [w |] eqn:Ew;
    [rewrite (int_of_text_no_nul text w Ew)
    | destruct (has_nul text);
      (split; [discriminate | intros [H _]; discriminate H])].
  destruct ((INT4_MIN <=? w) && (w <=? INT4_MAX)) eqn:E.
  - apply andb_prop in E as [E1 E2]. apply Z.leb_le in E1, E2.
    split; [intros H; inversion H; subst; auto | intros [H _]; inversion H; reflexivity].
  - split; [discriminate |]. intros [H [H1 H2]]. inversion H; subst w.
    apply Z.leb_le in H1, H2. rewrite H1, H2 in E. discriminate E.
Qed.

Lemma int4_of_text_above text v :
  int_of_text text = Some v -> INT4_MAX < v -> int4_of_text text = inl out_of_range.
Proof.
  intros H Hv. unfold int4_of_text. rewrite (int_of_text_no_nul text v H), H.
  rewrite (proj2 (Z.leb_gt v INT4_MAX)) by exact Hv.
  rewrite andb_false_r. reflexivity.
Qed.

(** A validated identifier is read as the integer it spells when that
    integer is an [INTEGER], and refused otherwise. *)
Lemma param_text_int id p :
  int_of_text id = Some p -> 0 < p <= INT4_MAX -> param_int (PText id) = inr p.
Proof.
  intros H Hp. apply int4_of_text_inr. split; [exact H |].
  unfold INT4_MIN. lia.
Qed.

Lemma param_text_above id p :
  int_of_text id = Some p -> INT4_MAX < p ->
  param_int (PText id) = inl out_of_range.
Proof. apply int4_of_text_above. Qed.

(** What [shortest_from] returns rounds to the double it was given. *)
Lemma shortest_from_round j z :
  JsNum.round53 (JsNum.shortest_from j z) = z \/ JsNum.shortest_from j z = z.
Proof.
  induction j as [| j IH].
  all: unfold JsNum.shortest_from; fold JsNum.shortest_from.
  all: set (p := 10 ^ Z.of_nat _).
  all: destruct (0 <? z `div` p); cbn [andb].
  all: destruct (JsNum.round53 (z `div` p * p) =? z) eqn:Ea;
    destruct (JsNum.round53 ((z `div` p + 1) * p) =? z) eqn:Eb; cbn [andb].
  all: try apply Z.eqb_eq in Ea; try apply Z.eqb_eq in Eb.
  all: repeat match goal with |- context [if ?b then _ else _] => destruct b end.
  all: auto.
Qed.

Lemma int_of_text_one_digit c d x rest :
  JsNum.digit_val c = Some d -> JsNum.digit_val x = None -> is_space x = false ->
  int_of_text (String c (String x rest)) = None.
Proof.
  intros Hc Hx Hs. unfold int_of_text. simpl skip_spaces.
  rewrite (digit_not_space _ _ Hc), (digit_not_sign _ _ _ Hc).
  simpl. rewrite Hc, Hx. simpl. rewrite Hs. reflexivity.
Qed.

(** The text of a positive number, when the server can read it as an
    [INTEGER], spells that number. *)
Lemma number_text_inv t v :
  0 < t -> int4_of_text (JsNum.toString (JsNum.Finite t)) = inr v -> v = t.
Proof.
  intros Ht H. apply int4_of_text_inr in H as [H [_ Hv]].
  assert (INT4_MAX < 2 ^ 53) as Hmax by (vm_compute; reflexivity).
  unfold JsNum.toString in H.
  destruct (t =? 0) eqn:E0; [apply Z.eqb_eq in E0; lia |].
  destruct (t <? 0) eqn:E1; [apply Z.ltb_lt in E1; lia |].
  unfold JsNum.positive_toString in H.
  pose proof (shortest_from_pos (String.length (JsNum.decimal t)) t Ht) as Hc.
  pose proof (shortest_from_round (String.length (JsNum.decimal t)) t) as Hr.
  fold (JsNum.shortest t) in Hc, Hr.
  set (c := JsNum.shortest t) in *.
  destruct (Z.of_nat (String.length (JsNum.decimal c)) <=? 21).
  - rewrite (decimal_int_of_text c Hc) in H. inversion H; subst v.
    destruct Hr as [Hr | Hr]; [| exact Hr].
    rewrite round53_small in Hr by lia. exact Hr.
  - exfalso. set (w := JsNum.strip_trailing_zeros _ c) in H.
    pose proof (decimal_digits w) as Hall. pose proof (decimal_nonempty w) as Hne.
    destruct (JsNum.decimal w) as [| d rest]; [congruence |].
    simpl in Hall. destruct (JsNum.digit_val d) as [dv |] eqn:Hd; [| discriminate].
    destruct rest; cbn [String.append] in H;
      rewrite (int_of_text_one_digit _ _ _ _ Hd) in H;
      solve [discriminate H | reflexivity].
Qed.

Lemma param_number_inv t v :
  0 < t -> param_int (PNumber t) = inr v -> v = t.
Proof. apply number_text_inv. Qed.

Lemma param_number t :
  0 < t <= INT4_MAX -> param_int (PNumber t) = inr t.
Proof.
  intros Ht. unfold param_int, param_text.
  assert (INT4_MAX < 2 ^ 53) as Hmax by (vm_compute; reflexivity).
  rewrite toString_small by lia. apply int4_of_text_inr.
  split; [apply decimal_int_of_text; lia | unfold INT4_MIN; lia].
Qed.

Lemma param_int_text id p :
  param_int (PText id) = inr p ->
  int_of_text id = Some p /\ INT4_MIN <= p <= INT4_MAX.
Proof. apply int4_of_text_inr. Qed.


(* ===================================================================== *)
(** ** Facts about the store and about running a handler *)
(* ===================================================================== *)

Lemma run_query faults q k db :
  run faults (DbQuery q k) db =
  let '(result, db') := answer faults q db in
  let '(r, db'', calls) := run (tail faults) (k result) db' in
  (r, db'', (q, result) :: calls).
Proof. reflexivity. Qed.

Lemma with_int_state p db k :
  (forall z, (k z).2 = db) -> (with_int p db k).2 = db.
Proof. intros H. unfold with_int. destruct (param_int p); [reflexivity | apply H]. Qed.

Lemma exec_select_state q db : is_select q = true -> (exec q db).2 = db.
Proof.
  destruct q; simpl; intros H; try discriminate; try reflexivity;
    apply with_int_state; reflexivity.
Qed.

Lemma answer_select_state faults q db :
  is_select q = true -> (answer faults q db).2 = db.
Proof.
  intros H. unfold answer.
  destruct faults as [| [e |] faults]; try apply exec_select_state; auto.
Qed.

Lemma insert_playlist_track_throws p t db e db' :
  insert_playlist_track p t db = (Throws e, db') -> records db' = records db.
Proof.
  unfold insert_playlist_track. intros H.
  repeat match type of H with
         | (if ?c then _ else _) = _ => destruct c
         end; inversion H; reflexivity.
Qed.

Lemma exec_insert_playlist_track_throws a b db e db' :
  exec (InsertPlaylistTrack a b) db = (Throws e, db') -> records db' = records db.
Proof.
  simpl. unfold with_int.
  destruct (param_int a); [intros H; inversion H; reflexivity |].
  destruct (param_int b); [intros H; inversion H; reflexivity |].
  apply insert_playlist_track_throws.
Qed.

Lemma answer_insert_playlist_track_throws faults a b db e db' :
  answer faults (InsertPlaylistTrack a b) db = (Throws e, db') ->
  records db' = records db.
Proof.
  unfold answer. destruct faults as [| [e' |] faults];
    try apply exec_insert_playlist_track_throws.
  intros H. inversion H. reflexivity.
Qed.

(** One [db.query] of a running handler: name what it gave. *)
Ltac query_step :=
  cbv beta iota; rewrite run_query;
  let E := fresh "Hcall" in
  match goal with
  | |- context [answer ?f ?q ?db] =>
      let o := fresh "result" in
      let db' := fresh "db" in
      destruct (answer f q db) as [o db'] eqn:E
  end.

Ltac select_step :=
  query_step;
  match goal with
  | E : answer ?f ?q ?db = (_, ?db') |- _ =>
      let H := fresh in
      pose proof (answer_select_state f q db eq_refl) as H;
      rewrite E in H; simpl in H; subst db'
  end.


(** Every way a given call can be among the calls made. *)
Ltac calls_cases :=
  let H := fresh "Hin" in
  intros ? ? H; simpl in H;
  repeat match goal with
    | H : _ ∈ [] |- _ => apply not_elem_of_nil in H; contradiction
    | H : _ ∈ _ :: _ |- _ =>
        apply elem_of_cons in H as [H | H];
        [try discriminate H; inversion H; subst; clear H |]
    end.


(** ** [ORDER BY] on an integer key *)

Section order_by_key.
Context {A : Type} (key : A -> Z).

#[local] Instance key_le_transitive : Transitive (key_le key).
Proof. unfold key_le. intros a b c. lia. Qed.

#[local] Instance key_le_total : Total (key_le key).
Proof. unfold key_le. intros a b. lia. Qed.

Lemma key_injective_on (l : list A) x y :
  NoDup (key <$> l) -> x ∈ l -> y ∈ l -> key x = key y -> x = y.
Proof.
  induction l as [| a l IH]; simpl; intros Hnd Hx Hy Hk.
  - apply not_elem_of_nil in Hx. contradiction.
  - apply NoDup_cons in Hnd as [Ha Hnd].
    apply elem_of_cons in Hx as [-> | Hx]; apply elem_of_cons in Hy as [-> | Hy].
    + reflexivity.
    + exfalso. apply Ha. rewrite Hk. apply list_elem_of_fmap_2. exact Hy.
    + exfalso. apply Ha. rewrite <- Hk. apply list_elem_of_fmap_2. exact Hx.
    + apply IH; assumption.
Qed.

Lemma sorted_strictly (l : list A) :
  NoDup (key <$> l) -> StronglySorted (key_le key) l -> StronglySorted (key_lt key) l.
Proof.
  induction 2 as [| a l Hs IH Hall]; [constructor |].
  simpl in H. apply NoDup_cons in H as [Ha Hnd].
  constructor; [apply IH; exact Hnd |].
  rewrite Forall_forall in *. intros x Hx. specialize (Hall x Hx).
  assert (key a <> key x) as Hne.
  { intros Heq. apply Ha. rewrite Heq. apply list_elem_of_fmap_2. exact Hx. }
  unfold key_le, key_lt in *. lia.
Qed.

Lemma merge_sort_strictly (l : list A) :
  NoDup (key <$> l) -> StronglySorted (key_lt key) (merge_sort (key_le key) l).
Proof.
  intros Hnd. apply sorted_strictly.
  - rewrite (merge_sort_Permutation (key_le key) l). exact Hnd.
  - apply StronglySorted_merge_sort; apply _.
Qed.

Lemma merge_sort_insertion_order (l1 l2 : list A) :
  NoDup (key <$> l1) -> l1 ≡ₚ l2 ->
  merge_sort (key_le key) l1 = merge_sort (key_le key) l2.
Proof.
  intros Hnd Hp.
  apply (StronglySorted_unique_strong (key_le key)).
  - intros x1 x2 H1 H2 H12 H21.
    rewrite (merge_sort_Permutation (key_le key) l1) in H1.
    rewrite (merge_sort_Permutation (key_le key) l2), <- Hp in H2.
    apply (key_injective_on l1); try assumption.
    unfold key_le in *. lia.
  - apply StronglySorted_merge_sort; apply _.
  - apply StronglySorted_merge_sort; apply _.
  - rewrite !(merge_sort_Permutation (key_le key)). exact Hp.
Qed.
End order_by_key.

Lemma order_tracks_strictly l :
  NoDup (Track.id <$> l) -> StronglySorted (key_lt Track.id) (order_tracks_by_id l).
Proof. apply (merge_sort_strictly Track.id). Qed.

Lemma order_tracks_insertion_order l1 l2 :
  NoDup (Track.id <$> l1) -> l1 ≡ₚ l2 ->
  order_tracks_by_id l1 = order_tracks_by_id l2.
Proof. apply (merge_sort_insertion_order Track.id). Qed.

Lemma order_playlists_strictly l :
  NoDup (Playlist.id <$> l) ->
  StronglySorted (key_lt Playlist.id) (order_playlists_by_id l).
Proof. apply (merge_sort_strictly Playlist.id). Qed.

Lemma order_playlists_insertion_order l1 l2 :
  NoDup (Playlist.id <$> l1) -> l1 ≡ₚ l2 ->
  order_playlists_by_id l1 = order_playlists_by_id l2.
Proof. apply (merge_sort_insertion_order Playlist.id). Qed.

Lemma jukebox_consistent : consistent jukebox.
Proof.
  split; try (unfold INT4_MAX; simpl; lia).
  1-4: apply (bool_decide_unpack _); vm_compute; exact I.
  - intros pt Hpt. apply list_elem_of_singleton in Hpt. subst pt.
    split; apply (bool_decide_unpack _); vm_compute; exact I.
  - intros i Hi. unfold playlist_ids in Hi. simpl in Hi.
    repeat (apply elem_of_cons in Hi as [-> | Hi]; [simpl; lia |]).
    apply not_elem_of_nil in Hi. contradiction.
  - intros i Hi. unfold track_ids in Hi. simpl in Hi.
    repeat (apply elem_of_cons in Hi as [-> | Hi]; [simpl; lia |]).
    apply not_elem_of_nil in Hi. contradiction.
  - intros i Hi. unfold playlist_track_ids in Hi. simpl in Hi.
    repeat (apply elem_of_cons in Hi as [-> | Hi]; [simpl; lia |]).
    apply not_elem_of_nil in Hi. contradiction.
Qed.


Lemma exhausted_consistent : consistent exhausted.
Proof.
  split; try (simpl; unfold INT4_MAX; lia).
  1-4: apply (bool_decide_unpack _); vm_compute; exact I.
  - intros pt Hpt. apply list_elem_of_singleton in Hpt. subst pt.
    split; apply (bool_decide_unpack _); vm_compute; exact I.
  - intros i Hi. unfold playlist_ids in Hi. simpl in Hi.
    repeat (apply elem_of_cons in Hi as [-> | Hi];
            [simpl; unfold INT4_MAX; lia |]).
    apply not_elem_of_nil in Hi. contradiction.
  - intros i Hi. unfold track_ids in Hi. simpl in Hi.
    repeat (apply elem_of_cons in Hi as [-> | Hi]; [simpl; lia |]).
    apply not_elem_of_nil in Hi. contradiction.
  - intros i Hi. unfold playlist_track_ids in Hi. simpl in Hi.
    repeat (apply elem_of_cons in Hi as [-> | Hi];
            [simpl; unfold INT4_MAX; lia |]).
    apply not_elem_of_nil in Hi. contradiction.
Qed.

Lemma filter_eq_absent (l : list Z) z : z ∉ l -> filter (fun i => i = z) l = [].
Proof.
  induction l as [| x l IH]; intros H; [reflexivity |].
  apply not_elem_of_cons in H as [Hne Hl].
  rewrite filter_cons_False by congruence. apply IH. exact Hl.
Qed.

Lemma filter_eq_present (l : list Z) z :
  z ∈ l -> exists rest, filter (fun i => i = z) l = z :: rest.
Proof.
  induction l as [| x l IH]; intros H.
  - apply not_elem_of_nil in H. contradiction.
  - destruct (decide (x = z)) as [-> | Hne].
    + rewrite filter_cons_True by reflexivity. eauto.
    + rewrite filter_cons_False by exact Hne.
      apply elem_of_cons in H as [-> | H]; [congruence | apply IH; exact H].
Qed.

Lemma get_field_truthy body k v :
  get_field body k = v -> v <> JUndefined -> truthy body = true.
Proof. destruct body; simpl; intros <- H; congruence. Qed.

Lemma with_int_inr p z db k : param_int p = inr z -> with_int p db k = k z.
Proof. intros H. unfold with_int. rewrite H. reflexivity. Qed.

Lemma with_int_inl p e db k :
  param_int p = inl e -> with_int p db k = (Throws e, db).
Proof. intros H. unfold with_int. rewrite H. reflexivity. Qed.

Lemma exec_playlist_check id p db :
  param_int id = inr p ->
  exec (SelectPlaylistIdById id) db
  = (Rows (IdRow <$> filter (fun i => i = p) (playlist_ids db)), db).
Proof. intros H. simpl. rewrite (with_int_inr _ _ _ _ H). reflexivity. Qed.

Lemma exec_track_check id t db :
  param_int id = inr t ->
  exec (SelectTrackIdById id) db
  = (Rows (IdRow <$> filter (fun i => i = t) (track_ids db)), db).
Proof. intros H. simpl. rewrite (with_int_inr _ _ _ _ H). reflexivity. Qed.

Lemma exec_insert_playlist_track a b p t db :
  param_int a = inr p -> param_int b = inr t ->
  exec (InsertPlaylistTrack a b) db = insert_playlist_track p t db.
Proof.
  intros Ha Hb. simpl. rewrite (with_int_inr _ _ _ _ Ha), (with_int_inr _ _ _ _ Hb).
  reflexivity.
Qed.

(** Identifiers stored in a state that satisfies the schema are values of
    [INTEGER]. *)
Lemma playlist_id_range db p :
  consistent db -> p ∈ playlist_ids db -> 0 < p <= INT4_MAX.
Proof.
  intros Hdb Hp. apply (playlists_drawn db Hdb) in Hp.
  pose proof (playlists_id_seq_max db Hdb). lia.
Qed.

Lemma track_id_range db t :
  consistent db -> t ∈ track_ids db -> 0 < t <= INT4_MAX.
Proof.
  intros Hdb Ht. apply (tracks_drawn db Hdb) in Ht.
  pose proof (tracks_id_seq_max db Hdb). lia.
Qed.

(** POST /playlists/:id/tracks for an existing playlist and an existing
    track, with the store answering every call: the two checks pass and
    the response is decided by the insert. *)
Lemma run_post_playlist_tracks id p t body db :
  isValidId id = true -> param_int (PText id) = inr p ->
  get_field body "trackId" = JInt t ->
  p ∈ playlist_ids db -> t ∈ track_ids db -> 0 < t <= INT4_MAX ->
  exists playlistCheck trackCheck,
    run [] (post_playlist_tracks id body) db
    = (match (insert_playlist_track p t db).1 with
       | Rows (playlistTrack :: _) =>
           {| status := 201; json := JsonRow playlistTrack |}
       | Rows [] => {| status := 201; json := JsonUndefined |}
       | Throws e =>
           if decide (code e = Some "23505")
           then bad_request "Track is already in this playlist"
           else server_error
                  "Internal server error while adding track to playlist"
       end,
       (insert_playlist_track p t db).2,
       [ (SelectPlaylistIdById (PText id), playlistCheck);
         (SelectTrackIdById (PNumber t), trackCheck);
         (InsertPlaylistTrack (PText id) (PNumber t),
          (insert_playlist_track p t db).1) ]).
Proof.
  intros Hid Hp Hbody Hpl Htr Ht. unfold post_playlist_tracks.
  pose proof (param_number t Ht) as Hn.
  rewrite Hid, (get_field_truthy _ _ _ Hbody) by discriminate.
  rewrite Hbody. cbn [negb].
  destruct (t <=? 0) eqn:E; [apply Z.leb_le in E; lia |].
  rewrite run_query. unfold answer. rewrite (exec_playlist_check _ _ _ Hp).
  destruct (filter_eq_present _ _ Hpl) as [rest ->].
  cbv beta iota. rewrite fmap_cons. cbv beta iota.
  rewrite run_query. unfold answer. simpl tail.
  rewrite (exec_track_check _ _ _ Hn).
  destruct (filter_eq_present _ _ Htr) as [rest' ->].
  cbv beta iota. rewrite fmap_cons. cbv beta iota.
  rewrite run_query. unfold answer. simpl tail.
  rewrite (exec_insert_playlist_track _ _ _ _ _ Hp Hn).
  destruct (insert_playlist_track p t db) as [[[| playlistTrack others] | e] db'];
    cbn [fst snd];
    [| | destruct (decide (code e = Some "23505"))]; eexists _, _; reflexivity.
Qed.

Lemma insert_playlist_track_new p t db :
  playlists_tracks_id_seq db < INT4_MAX ->
  playlists_tracks_id_seq db + 1 ∉ playlist_track_ids db ->
  (p, t) ∉ playlist_track_pairs db ->
  p ∈ playlist_ids db -> t ∈ track_ids db ->
  insert_playlist_track p t db
  = (Rows [PlaylistTrackRow (new_playlist_track db p t)],
     with_playlist_track db (new_playlist_track db p t)).
Proof.
  intros Hseq Hid Hpair Hp Ht. unfold insert_playlist_track.
  rewrite decide_False by lia.
  rewrite decide_False by exact Hid. rewrite decide_False by exact Hpair.
  rewrite decide_False by (intros H; exact (H Hp)).
  rewrite decide_False by (intros H; exact (H Ht)). reflexivity.
Qed.

Lemma insert_playlist_track_again p t db :
  playlists_tracks_id_seq db < INT4_MAX ->
  playlists_tracks_id_seq db + 1 ∉ playlist_track_ids db ->
  (p, t) ∈ playlist_track_pairs db ->
  insert_playlist_track p t db
  = (Throws (constraint_error unique_violation
               playlists_tracks_playlist_id_track_id_key),
     drawn_playlist_track db).
Proof.
  intros Hseq Hid Hpair. unfold insert_playlist_track.
  rewrite decide_False by lia.
  rewrite decide_False by exact Hid. rewrite decide_True by exact Hpair.
  reflexivity.
Qed.

Lemma insert_playlist_track_exhausted p t db :
  INT4_MAX <= playlists_tracks_id_seq db ->
  insert_playlist_track p t db = (Throws sequence_exhausted, db).
Proof.
  intros Hseq. unfold insert_playlist_track.
  rewrite decide_True by exact Hseq. reflexivity.
Qed.

Lemma drawn_id_fresh db :
  consistent db -> playlists_tracks_id_seq db + 1 ∉ playlist_track_ids db.
Proof. intros Hdb H. apply (playlists_tracks_drawn db Hdb) in H. lia. Qed.

Lemma no_associations db p t :
  (p, t) ∉ playlist_track_pairs db -> associations db p t = [].
Proof.
  unfold associations, playlist_track_pairs.
  induction (playlists_tracks db) as [| pt l IH]; intros H; [reflexivity |].
  rewrite fmap_cons in H. apply not_elem_of_cons in H as [Hne Hl].
  rewrite filter_cons_False; [apply IH; exact Hl |].
  intros [<- <-]. apply Hne. reflexivity.
Qed.


Lemma elem_of_joined db p t x :
  x ∈ joined db p t <-> x = t /\ (p, Track.id t) ∈ playlist_track_pairs db.
Proof.
  unfold joined, playlist_track_pairs. rewrite list_elem_of_bind, list_elem_of_fmap.
  split.
  - intros (pt & Hx & Hpt). destruct (decide _) as [[Ht Hp] |].
    + apply list_elem_of_singleton in Hx. split; [exact Hx |].
      exists pt. split; [| exact Hpt]. rewrite Ht, Hp. reflexivity.
    + apply not_elem_of_nil in Hx. contradiction.
  - intros (-> & pt & Heq & Hpt). exists pt. split; [| exact Hpt].
    inversion Heq. rewrite decide_True by (split; congruence).
    apply list_elem_of_here.
Qed.

Lemma elem_of_join db p x :
  x ∈ join_playlist_tracks db p
  <-> x ∈ tracks db /\ (p, Track.id x) ∈ playlist_track_pairs db.
Proof.
  unfold join_playlist_tracks. rewrite list_elem_of_bind.
  split.
  - intros (t & Hx & Ht). apply elem_of_joined in Hx as [-> Hp]. auto.
  - intros [Hx Hp]. exists x. split; [| exact Hx]. apply elem_of_joined. auto.
Qed.

Lemma joined_at_most_once db p t :
  NoDup (playlist_track_pairs db) ->
  joined db p t = [] \/ joined db p t = [t].
Proof.
  unfold joined, playlist_track_pairs.
  induction (playlists_tracks db) as [| pt l IH]; intros Hnd; [left; reflexivity |].
  rewrite fmap_cons in Hnd. apply NoDup_cons in Hnd as [Hpt Hnd].
  rewrite bind_cons. destruct (decide _) as [[Ht Hp] | Hno].
  - right. assert ((l ≫= fun pt' =>
                      if decide (Track.id t = PlaylistTrack.track_id pt'
                                 /\ PlaylistTrack.playlist_id pt' = p)
                      then [t] else []) = []) as ->; [| reflexivity].
    clear IH Hnd. induction l as [| pt' l IH]; [reflexivity |].
    rewrite fmap_cons in Hpt. apply not_elem_of_cons in Hpt as [Hne Hpt].
    rewrite bind_cons. rewrite decide_False; [apply IH; exact Hpt |].
    intros [Ht' Hp']. apply Hne. congruence.
  - simpl. apply IH. exact Hnd.
Qed.

Lemma join_ids_sublist db p :
  NoDup (playlist_track_pairs db) ->
  (Track.id <$> join_playlist_tracks db p) `sublist_of` track_ids db.
Proof.
  intros Hnd. unfold join_playlist_tracks, track_ids.
  induction (tracks db) as [| t l IH]; [constructor |].
  rewrite bind_cons, fmap_app, fmap_cons.
  destruct (joined_at_most_once db p t Hnd) as [-> | ->]; simpl.
  - apply sublist_cons. exact IH.
  - apply sublist_skip. exact IH.
Qed.

Lemma join_empty db p :
  (forall pt, pt ∈ playlists_tracks db -> PlaylistTrack.playlist_id pt <> p) ->
  join_playlist_tracks db p = [].
Proof.
  intros Hnone. destruct (join_playlist_tracks db p) as [| x l] eqn:E; [reflexivity |].
  assert (x ∈ join_playlist_tracks db p) as Hx by (rewrite E; apply list_elem_of_here).
  apply elem_of_join in Hx as [_ Hx]. unfold playlist_track_pairs in Hx.
  apply list_elem_of_fmap in Hx as (pt & Heq & Hpt). inversion Heq.
  exfalso. apply (Hnone pt Hpt). congruence.
Qed.

Lemma exec_playlist_tracks id p db :
  param_int id = inr p ->
  exec (SelectPlaylistTracks id) db
  = (Rows (TrackRow <$> order_tracks_by_id (join_playlist_tracks db p)), db).
Proof. intros H. simpl. rewrite (with_int_inr _ _ _ _ H). reflexivity. Qed.


Lemma insert_playlist_new name description db :
  has_nul name = false -> has_nul description = false ->
  playlists_id_seq db < INT4_MAX ->
  playlists_id_seq db + 1 ∉ playlist_ids db ->
  insert_playlist name description db
  = (Rows [PlaylistRow (new_playlist db name description)],
     with_playlist db (new_playlist db name description)).
Proof.
  intros Hn Hd Hseq H. unfold insert_playlist. rewrite Hn, Hd. cbn [orb].
  rewrite decide_False by lia. rewrite decide_False by exact H. reflexivity.
Qed.

Lemma drawn_playlist_id_fresh db :
  consistent db -> playlists_id_seq db + 1 ∉ playlist_ids db.
Proof. intros Hdb H. apply (playlists_drawn db Hdb) in H. lia. Qed.

Lemma with_playlist_consistent db name description :
  consistent db -> playlists_id_seq db < INT4_MAX ->
  consistent (with_playlist db (new_playlist db name description)).
Proof.
  intros Hdb Hmax. pose proof (playlists_id_seq_nonneg db Hdb) as Hseq.
  assert (playlist_ids (with_playlist db (new_playlist db name description))
          = (playlist_ids db ++ [playlists_id_seq db + 1])%list) as Hids.
  { unfold playlist_ids. simpl. rewrite fmap_app. reflexivity. }
  split; try (destruct Hdb; assumption).
  - rewrite Hids. apply NoDup_app. split; [apply (playlists_pk db Hdb) |].
    split; [| apply NoDup_singleton].
    intros x Hx Hx'. apply list_elem_of_singleton in Hx'.
    apply (playlists_drawn db Hdb) in Hx. lia.
  - intros pt Hpt. destruct (playlists_tracks_fk db Hdb pt Hpt) as [H1 H2].
    split; [| exact H2]. rewrite Hids. apply elem_of_app. left. exact H1.
  - intros i Hi. rewrite Hids in Hi. simpl.
    apply elem_of_app in Hi as [Hi | Hi].
    + apply (playlists_drawn db Hdb) in Hi. lia.
    + apply list_elem_of_singleton in Hi. lia.
  - simpl. lia.
  - simpl. lia.
Qed.

Lemma truthy_string s : s <> EmptyString -> truthy (JString s) = true.
Proof.
  intros H. simpl. destruct (String.eqb s EmptyString) eqn:E; [| reflexivity].
  apply String.eqb_eq in E. contradiction.
Qed.

(** POST /playlists with two non-empty strings, the store answering. *)
Lemma run_post_playlists name description body db :
  get_field body "name" = JString name ->
  get_field body "description" = JString description ->
  name <> EmptyString -> description <> EmptyString ->
  has_nul name = false -> has_nul description = false ->
  playlists_id_seq db < INT4_MAX ->
  playlists_id_seq db + 1 ∉ playlist_ids db ->
  run [] (post_playlists body) db
  = ({| status := 201;
        json := JsonRow (PlaylistRow (new_playlist db name description)) |},
     with_playlist db (new_playlist db name description),
     [ (InsertPlaylist name description,
        Rows [PlaylistRow (new_playlist db name description)]) ]).
Proof.
  intros Hname Hdesc Hn Hd Hn0 Hd0 Hseq Hfresh. unfold post_playlists.
  rewrite (get_field_truthy _ _ _ Hname) by discriminate.
  rewrite Hname, Hdesc, (truthy_string _ Hn), (truthy_string _ Hd).
  cbn [negb orb]. rewrite run_query. unfold answer.
  change (exec (InsertPlaylist name description) db)
    with (insert_playlist name description db).
  rewrite (insert_playlist_new _ _ _ Hn0 Hd0 Hseq Hfresh). reflexivity.
Qed.


(** ** The schema's constraints hold in every state the handlers leave *)

Lemma insert_playlist_consistent name description db :
  consistent db -> consistent (insert_playlist name description db).2.
Proof.
  intros Hdb. unfold insert_playlist.
  destruct (has_nul name || has_nul description); [exact Hdb |].
  destruct (decide (INT4_MAX <= playlists_id_seq db)) as [| Hseq]; [exact Hdb |].
  rewrite decide_False by (apply drawn_playlist_id_fresh, Hdb).
  apply with_playlist_consistent; [exact Hdb | lia].
Qed.

Lemma drawn_playlist_track_consistent db :
  consistent db -> playlists_tracks_id_seq db < INT4_MAX ->
  consistent (drawn_playlist_track db).
Proof.
  intros Hdb Hmax. split; try (destruct Hdb; assumption).
  - intros i Hi. apply (playlists_tracks_drawn db Hdb) in Hi. simpl. lia.
  - simpl. pose proof (playlists_tracks_id_seq_nonneg db Hdb). lia.
  - simpl. lia.
Qed.

Lemma insert_playlist_track_consistent p t db :
  consistent db -> consistent (insert_playlist_track p t db).2.
Proof.
  intros Hdb. pose proof (drawn_id_fresh db Hdb) as Hfresh.
  pose proof (playlists_tracks_id_seq_nonneg db Hdb) as Hseq.
  unfold insert_playlist_track.
  destruct (decide (INT4_MAX <= playlists_tracks_id_seq db)) as [| Hmax];
    [exact Hdb |].
  assert (playlists_tracks_id_seq db < INT4_MAX) as Hmax' by lia.
  rewrite decide_False by exact Hfresh.
  destruct (decide ((p, t) ∈ playlist_track_pairs db)) as [| Hpair];
    [apply (drawn_playlist_track_consistent db Hdb Hmax') |].
  destruct (decide (p ∉ playlist_ids db)) as [| Hp];
    [apply (drawn_playlist_track_consistent db Hdb Hmax') |].
  destruct (decide (t ∉ track_ids db)) as [| Ht];
    [apply (drawn_playlist_track_consistent db Hdb Hmax') |].
  apply dec_stable in Hp. apply dec_stable in Ht. cbn [snd].
  split; try (destruct Hdb; assumption).
  - unfold playlist_track_ids. simpl. rewrite fmap_app. apply NoDup_app.
    split; [apply (playlists_tracks_pk db Hdb) |].
    split; [| apply NoDup_singleton].
    intros x Hx Hx'. apply list_elem_of_singleton in Hx'. simpl in Hx'.
    apply (playlists_tracks_drawn db Hdb) in Hx. lia.
  - unfold playlist_track_pairs. simpl. rewrite fmap_app. apply NoDup_app.
    split; [apply (playlists_tracks_unique db Hdb) |].
    split; [| apply NoDup_singleton].
    intros x Hx Hx'. apply list_elem_of_singleton in Hx'. simpl in Hx'.
    subst x. exact (Hpair Hx).
  - intros pt Hpt. simpl in Hpt. apply elem_of_app in Hpt as [Hpt | Hpt].
    + apply (playlists_tracks_fk db Hdb pt Hpt).
    + apply list_elem_of_singleton in Hpt. subst pt. simpl. auto.
  - intros i Hi. unfold playlist_track_ids in Hi. simpl in Hi.
    rewrite fmap_app in Hi. simpl. apply elem_of_app in Hi as [Hi | Hi].
    + apply (playlists_tracks_drawn db Hdb) in Hi. lia.
    + apply list_elem_of_singleton in Hi. simpl in Hi. lia.
  - simpl. lia.
  - simpl. lia.
Qed.

Lemma exec_consistent q db : consistent db -> consistent (exec q db).2.
Proof.
  intros Hdb. destruct (is_select q) eqn:E.
  - rewrite exec_select_state by exact E. exact Hdb.
  - destruct q; try discriminate E; simpl.
    + apply insert_playlist_consistent. exact Hdb.
    + unfold with_int. destruct (param_int playlist_id); [exact Hdb |].
      destruct (param_int track_id); [exact Hdb |].
      apply insert_playlist_track_consistent. exact Hdb.
Qed.

Lemma answer_consistent faults q db :
  consistent db -> consistent (answer faults q db).2.
Proof.
  intros Hdb. unfold answer.
  destruct faults as [| [e |] faults]; try apply exec_consistent; exact Hdb.
Qed.

(** Whatever a handler does with the rows and the errors it gets, the state
    it leaves satisfies the schema when the state it started from did. *)
Lemma run_consistent h : forall faults db,
  consistent db -> consistent (state_of (run faults h db)).
Proof.
  induction h as [r | q k IH]; intros faults db Hdb; [exact Hdb |].
  rewrite run_query. pose proof (answer_consistent faults q db Hdb) as Hq.
  destruct (answer faults q db) as [result db']. cbn [snd] in Hq.
  specialize (IH result (tail faults) db' Hq).
  destruct (run (tail faults) (k result) db') as [[r db''] calls]. exact IH.
Qed.

(* ===================================================================== *)
(** ** The properties of the API *)
(* ===================================================================== *)

(** C1 (as amended).  In a state that satisfies the schema and whose
    sequence behind [playlists_tracks.id] has two values left, with playlist
    [p] and track [t] present and not yet associated, and the store
    answering every call: the first POST for them answers 201 with an
    association whose identifier is new, the same POST again answers 400
    "Track is already in this playlist", and afterwards exactly one
    association of [p] with [t] is stored. *)
Theorem add_track_twice id p t body db :
  consistent db ->
  playlists_tracks_id_seq db + 2 <= INT4_MAX ->
  isValidId id = true -> int_of_text id = Some p ->
  get_field body "trackId" = JInt t ->
  p ∈ playlist_ids db -> t ∈ track_ids db ->
  (p, t) ∉ playlist_track_pairs db ->
  let first := run [] (post_playlist_tracks id body) db in
  let second := run [] (post_playlist_tracks id body) (state_of first) in
  exists association,
    response_of first
    = {| status := 201; json := JsonRow (PlaylistTrackRow association) |}
    /\ PlaylistTrack.playlist_id association = p
    /\ PlaylistTrack.track_id association = t
    /\ 0 < PlaylistTrack.id association
    /\ (PlaylistTrack.id association ∉ playlist_track_ids db)
    /\ response_of second = bad_request "Track is already in this playlist"
    /\ associations (state_of second) p t = [association].
Proof.
  intros Hdb Hseq Hid Hp Hbody Hpl Htr Hpair. cbv zeta.
  pose proof (track_id_range db t Hdb Htr) as Ht.
  apply param_text_int in Hp; [| exact (playlist_id_range db p Hdb Hpl)].
  pose proof (drawn_id_fresh db Hdb) as Hfresh.
  destruct (run_post_playlist_tracks id p t body db Hid Hp Hbody Hpl Htr Ht)
    as (c1 & c2 & Hfirst).
  rewrite (insert_playlist_track_new p t db) in Hfirst by (assumption || lia).
  cbn [fst snd] in Hfirst. rewrite Hfirst.
  unfold state_of, response_of. cbn [fst snd].
  set (db1 := with_playlist_track db (new_playlist_track db p t)).
  assert (playlists_tracks_id_seq db1 + 1 ∉ playlist_track_ids db1) as Hfresh1.
  { unfold playlist_track_ids. simpl. rewrite fmap_app.
    intros H. apply elem_of_app in H as [H | H].
    - apply (playlists_tracks_drawn db Hdb) in H. lia.
    - apply list_elem_of_singleton in H. simpl in H. lia. }
  assert ((p, t) ∈ playlist_track_pairs db1) as Hpair1.
  { unfold playlist_track_pairs. simpl. rewrite fmap_app.
    apply elem_of_app. right. apply list_elem_of_singleton. reflexivity. }
  destruct (run_post_playlist_tracks id p t body db1 Hid Hp Hbody Hpl Htr Ht)
    as (c1' & c2' & Hsecond).
  rewrite (insert_playlist_track_again p t db1) in Hsecond
    by (assumption || (simpl; lia)).
  cbn [fst snd] in Hsecond. rewrite Hsecond. cbn [fst snd].
  exists (new_playlist_track db p t).
  split; [reflexivity |].
  split; [reflexivity |]. split; [reflexivity |].
  split; [simpl; pose proof (playlists_tracks_id_seq_nonneg db Hdb); lia |].
  split; [exact Hfresh |].
  split; [reflexivity |].
  unfold associations, drawn_playlist_track. cbn [playlists_tracks].
  unfold db1, with_playlist_track. cbn [playlists_tracks]. rewrite filter_app.
  fold (associations db p t). rewrite (no_associations db p t Hpair).
  rewrite filter_cons_True by (split; reflexivity). reflexivity.
Qed.

Lemma add_track_twice_witness :
  exists association,
    response_of (run [] (post_playlist_tracks "2" (trackId_body 3)) jukebox)
    = {| status := 201; json := JsonRow (PlaylistTrackRow association) |}
    /\ PlaylistTrack.id association = 2.
Proof.
  destruct (add_track_twice "2" 2 3 (trackId_body 3) jukebox jukebox_consistent)
    as (association & Hfirst & _ & _ & _ & _ & _ & Hstored).
  - vm_compute; discriminate.
  - vm_compute; reflexivity.
  - vm_compute; reflexivity.
  - vm_compute; reflexivity.
  - apply (bool_decide_unpack _); vm_compute; exact I.
  - apply (bool_decide_unpack _); vm_compute; exact I.
  - apply (bool_decide_unpack _); vm_compute; exact I.
  - exists association. split; [exact Hfirst |].
    vm_compute in Hfirst. inversion Hfirst. reflexivity.
Defined.

(** C1, as stated, fails.  In [exhausted] playlist 2 and track 3 exist and
    are not associated, the state satisfies the schema, and the first POST
    for them is answered 500: the sequence behind [playlists_tracks.id] has
    no value left.  In [restored], where identifiers were not drawn from
    the sequences, the first POST for them is not answered 201 either. *)
Lemma add_track_refused_without_fresh_identifier :
  consistent exhausted
  /\ 2 ∈ playlist_ids exhausted /\ 3 ∈ track_ids exhausted
  /\ ((2, 3) ∉ playlist_track_pairs exhausted)
  /\ run [] (post_playlist_tracks "2" (trackId_body 3)) exhausted
     = (server_error "Internal server error while adding track to playlist",
        exhausted,
        [ (SelectPlaylistIdById (PText "2"), Rows [IdRow 2]);
          (SelectTrackIdById (PNumber 3), Rows [IdRow 3]);
          (InsertPlaylistTrack (PText "2") (PNumber 3),
           Throws sequence_exhausted) ])
  /\ 2 ∈ playlist_ids restored /\ 3 ∈ track_ids restored
  /\ ((2, 3) ∉ playlist_track_pairs restored)
  /\ status (response_of
               (run [] (post_playlist_tracks "2" (trackId_body 3)) restored))
     <> 201.
Proof.
  split; [exact exhausted_consistent |].
  split; [apply (bool_decide_unpack _); vm_compute; exact I |].
  split; [apply (bool_decide_unpack _); vm_compute; exact I |].
  split; [apply (bool_decide_unpack _); vm_compute; exact I |].
  split; [vm_compute; reflexivity |].
  split; [apply (bool_decide_unpack _); vm_compute; exact I |].
  split; [apply (bool_decide_unpack _); vm_compute; exact I |].
  split; [apply (bool_decide_unpack _); vm_compute; exact I |].
  vm_compute. discriminate.
Qed.

(** C2.  The code breaks the claim.  In [restored], rows loaded with their
    identifiers while the sequences were left at their start, the insert for
    playlist 1 and track 2, which is not in that playlist, violates the
    primary key of [playlists_tracks]; the error carries SQLSTATE 23505, is
    not the violation of the (playlist, track) pair, and is answered 400
    "Track is already in this playlist" where the claim, and the comment
    above the route, ask for 500. *)
Lemma primary_key_violation_answered_400 :
  let r := run [] (post_playlist_tracks "1" (trackId_body 2)) restored in
  let e := constraint_error unique_violation playlists_tracks_pkey in
  ((1, 2) ∉ playlist_track_pairs restored)
  /\ calls_of r
     = [ (SelectPlaylistIdById (PText "1"), Rows [IdRow 1]);
         (SelectTrackIdById (PNumber 2), Rows [IdRow 2]);
         (InsertPlaylistTrack (PText "1") (PNumber 2), Throws e) ]
  /\ ~ is_pair_violation e
  /\ response_of r = bad_request "Track is already in this playlist".
Proof.
  cbv zeta. split; [| split; [| split]].
  - vm_compute. intros H. apply list_elem_of_singleton in H. discriminate.
  - vm_compute. reflexivity.
  - intros [_ H]. discriminate.
  - vm_compute. reflexivity.
Qed.

(** C3 (as amended).  [isValidId] accepts a string exactly when it is a
    decimal numeral of a positive integer, with no leading zero, sign,
    decimal point or white space, that a Number prints back digit for digit;
    every such numeral up to Number.MAX_SAFE_INTEGER does; and ["0"],
    ["-1"], ["1.5"], ["abc"], ["01"] and the empty string are rejected. *)
Theorem isValidId_accepts_round_trip_decimals :
  (forall s, isValidId s = true <->
             is_positive_decimal s = true
             /\ JsNum.toString (JsNum.to_double (JsNum.read_digits s 0)) = s)
  /\ (forall s, is_positive_decimal s = true ->
                JsNum.read_digits s 0 <= MAX_SAFE_INTEGER ->
                isValidId s = true)
  /\ isValidId "0" = false /\ isValidId "-1" = false
  /\ isValidId "1.5" = false /\ isValidId "abc" = false
  /\ isValidId "01" = false /\ isValidId EmptyString = false.
Proof.
  split; [exact isValidId_iff |]. split; [exact isValidId_safe |].
  repeat split; vm_compute; reflexivity.
Qed.

Lemma isValidId_accepts_round_trip_decimals_witness :
  isValidId "2147483647" = true /\ isValidId "9223372036854776000" = true.
Proof.
  split.
  - apply (proj1 (proj2 isValidId_accepts_round_trip_decimals) "2147483647").
    + vm_compute; reflexivity.
    + vm_compute. discriminate.
  - apply (proj1 isValidId_accepts_round_trip_decimals "9223372036854776000").
    split; vm_compute; reflexivity.
Defined.

(** C3, as stated, fails: 2^53 + 1 is a positive-integer numeral without
    leading zeros, and [isValidId] rejects it, because [parseInt] rounds it
    to 9007199254740992. *)
Lemma isValidId_rejects_9007199254740993 :
  is_positive_decimal "9007199254740993" = true
  /\ JsNum.toString (JsNum.parseInt "9007199254740993") = "9007199254740992"
  /\ isValidId "9007199254740993" = false.
Proof. repeat split; vm_compute; reflexivity. Qed.

(** C4 (as amended).  POST /playlists/:id/tracks for an existing playlist
    (its identifier is a value of [INTEGER]) and a trackId that is a
    positive integer of at most [INT4_MAX] but the identifier of no track
    answers 400 "Track does not exist" (not 404), after the two existence
    checks, which the store answers. *)
Theorem unknown_track_is_bad_request id p t body db :
  isValidId id = true -> int_of_text id = Some p ->
  p ∈ playlist_ids db -> p <= INT4_MAX ->
  get_field body "trackId" = JInt t -> 0 < t <= INT4_MAX ->
  t ∉ track_ids db ->
  run [] (post_playlist_tracks id body) db
  = (bad_request "Track does not exist", db,
     [ (SelectPlaylistIdById (PText id),
        Rows (IdRow <$> filter (fun i => i = p) (playlist_ids db)));
       (SelectTrackIdById (PNumber t), Rows []) ]).
Proof.
  intros Hid Hp Hpl Hmax Hbody Ht Htr. unfold post_playlist_tracks.
  destruct (isValidId_int_of_text id Hid) as (p' & Hp' & Hpos).
  rewrite Hp in Hp'. inversion Hp'; subst p'.
  apply param_text_int in Hp; [| lia].
  rewrite Hid, (get_field_truthy _ _ _ Hbody) by discriminate.
  rewrite Hbody. cbn [negb].
  destruct (t <=? 0) eqn:E; [apply Z.leb_le in E; lia |].
  rewrite run_query. unfold answer. rewrite (exec_playlist_check _ _ _ Hp).
  destruct (filter_eq_present _ _ Hpl) as [rest ->].
  cbv beta iota. rewrite fmap_cons. cbv beta iota.
  rewrite run_query. unfold answer. simpl tail.
  rewrite (exec_track_check _ _ _ (param_number t Ht)).
  rewrite (filter_eq_absent _ _ Htr). reflexivity.
Qed.

Lemma unknown_track_is_bad_request_witness :
  response_of (run [] (post_playlist_tracks "1" (trackId_body 999999)) jukebox)
  = bad_request "Track does not exist".
Proof.
  rewrite (unknown_track_is_bad_request "1" 1 999999 (trackId_body 999999) jukebox).
  - reflexivity.
  - vm_compute; reflexivity.
  - vm_compute; reflexivity.
  - apply (bool_decide_unpack _); vm_compute; exact I.
  - vm_compute; discriminate.
  - vm_compute; reflexivity.
  - split; [lia | vm_compute; discriminate].
  - apply (bool_decide_unpack _); vm_compute; exact I.
Defined.

(** C4, as stated, fails.  2147483648 is a positive integer and the
    identifier of no track; the driver sends it as text, the server cannot
    read it as an [INTEGER], the track check throws (SQLSTATE 22003) and the
    answer is 500.  The same happens to 10^21, which the driver sends as
    [1e+21] (SQLSTATE 22P02). *)
Lemma unknown_track_beyond_integer_is_server_error :
  isValidId "1" = true /\ 1 ∈ playlist_ids jukebox
  /\ (2147483648 ∉ track_ids jukebox)
  /\ run [] (post_playlist_tracks "1" (trackId_body 2147483648)) jukebox
     = (server_error "Internal server error while adding track to playlist",
        jukebox,
        [ (SelectPlaylistIdById (PText "1"), Rows [IdRow 1]);
          (SelectTrackIdById (PNumber 2147483648), Throws out_of_range) ])
  /\ param_text (PNumber (10 ^ 21)) = "1e+21"
  /\ run [] (post_playlist_tracks "1" (trackId_body (10 ^ 21))) jukebox
     = (server_error "Internal server error while adding track to playlist",
        jukebox,
        [ (SelectPlaylistIdById (PText "1"), Rows [IdRow 1]);
          (SelectTrackIdById (PNumber (10 ^ 21)), Throws syntax_error) ]).
Proof.
  split; [vm_compute; reflexivity |].
  split; [apply (bool_decide_unpack _); vm_compute; exact I |].
  split; [apply (bool_decide_unpack _); vm_compute; exact I |].
  split; [vm_compute; reflexivity |].
  split; vm_compute; reflexivity.
Qed.



(** C6 (as amended).  GET /playlists/:id/tracks with a well-formed
    identifier, in a state that satisfies the schema and with the store
    answering every call: 404 when no playlist has the identifier and the
    identifier is at most [INT4_MAX], 500 when it is beyond; otherwise 200
    with exactly the tracks associated with the playlist, each once, in
    ascending order of track identifier; that list is empty when the
    playlist has no association. *)
Theorem get_playlist_tracks_lists_members id p db :
  consistent db -> isValidId id = true -> int_of_text id = Some p ->
  let r := response_of (run [] (get_playlist_tracks id) db) in
  (p ∉ playlist_ids db -> p <= INT4_MAX ->
   r = {| status := 404; json := JsonError "Playlist not found" |})
  /\ (INT4_MAX < p ->
      r = server_error "Internal server error while fetching playlist tracks")
  /\ (p ∈ playlist_ids db ->
      exists listed,
        r = {| status := 200; json := JsonRows (TrackRow <$> listed) |}
        /\ (forall t, t ∈ listed <->
                      t ∈ tracks db
                      /\ (p, Track.id t) ∈ playlist_track_pairs db)
        /\ StronglySorted (key_lt Track.id) listed
        /\ ((forall pt, pt ∈ playlists_tracks db ->
                        PlaylistTrack.playlist_id pt <> p) ->
            listed = [])).
Proof.
  intros Hdb Hid Hp. cbv zeta. unfold get_playlist_tracks. rewrite Hid. cbn [negb].
  destruct (isValidId_int_of_text id Hid) as (p' & Hp' & Hpos).
  rewrite Hp in Hp'. inversion Hp'; subst p'.
  rewrite run_query. unfold answer.
  split; [| split].
  - intros Hno Hmax. apply param_text_int in Hp; [| lia].
    rewrite (exec_playlist_check _ _ _ Hp).
    rewrite (filter_eq_absent _ _ Hno). reflexivity.
  - intros Hmax. simpl exec.
    rewrite (with_int_inl _ _ _ _ (param_text_above id p Hp Hmax)). reflexivity.
  - intros Hpl. apply param_text_int in Hp;
      [| exact (playlist_id_range db p Hdb Hpl)].
    rewrite (exec_playlist_check _ _ _ Hp).
    destruct (filter_eq_present _ _ Hpl) as [rest ->].
    cbv beta iota. rewrite fmap_cons. cbv beta iota.
    rewrite run_query. unfold answer. simpl tail.
    rewrite (exec_playlist_tracks _ _ _ Hp).
    exists (order_tracks_by_id (join_playlist_tracks db p)).
    split; [reflexivity |].
    split; [| split].
    + intros t. unfold order_tracks_by_id.
      rewrite (merge_sort_Permutation (key_le Track.id)). apply elem_of_join.
    + apply order_tracks_strictly.
      apply (sublist_NoDup _ (track_ids db)); [apply (tracks_pk db Hdb) |].
      apply join_ids_sublist. apply (playlists_tracks_unique db Hdb).
    + intros Hnone. rewrite (join_empty db p Hnone). reflexivity.
Qed.

Lemma get_playlist_tracks_lists_members_witness :
  response_of (run [] (get_playlist_tracks "999999") jukebox)
  = {| status := 404; json := JsonError "Playlist not found" |}
  /\ exists listed,
       response_of (run [] (get_playlist_tracks "2") jukebox)
       = {| status := 200; json := JsonRows (TrackRow <$> listed) |}.
Proof.
  split.
  - apply (get_playlist_tracks_lists_members "999999" 999999 jukebox
             jukebox_consistent); [vm_compute; reflexivity .. | |].
    + apply (bool_decide_unpack _); vm_compute; exact I.
    + vm_compute; discriminate.
  - destruct (get_playlist_tracks_lists_members "2" 2 jukebox jukebox_consistent)
      as (_ & _ & H); [vm_compute; reflexivity .. |].
    destruct H as (listed & Hr & _).
    + apply (bool_decide_unpack _); vm_compute; exact I.
    + exists listed. exact Hr.
Defined.

(** C6, as stated, fails.  "2147483648" is a well-formed identifier and no
    playlist has it; the server cannot read it as an [INTEGER], the
    playlist check throws (SQLSTATE 22003) and the answer is 500, not
    404. *)
Lemma get_playlist_tracks_beyond_integer_is_server_error :
  isValidId "2147483648" = true
  /\ (2147483648 ∉ playlist_ids jukebox)
  /\ run [] (get_playlist_tracks "2147483648") jukebox
     = (server_error "Internal server error while fetching playlist tracks",
        jukebox,
        [ (SelectPlaylistIdById (PText "2147483648"), Throws out_of_range) ]).
Proof.
  split; [vm_compute; reflexivity |].
  split; [apply (bool_decide_unpack _); vm_compute; exact I |].
  vm_compute; reflexivity.
Qed.

(** C7 (as amended).  In a state that satisfies the schema and whose
    sequence behind [playlists.id] has a value left, with the store
    answering the insert, POST /playlists with a body whose name and
    description are non-empty strings without the character U+0000 answers
    201 with those two values and an identifier that is positive and belongs
    to no playlist stored before; the row is stored.  Nothing is asked of
    the name: the same body posted again, when the sequence has a second
    value left, gets 201 and another identifier. *)
Theorem create_playlist_succeeds name description body db :
  consistent db ->
  playlists_id_seq db < INT4_MAX ->
  get_field body "name" = JString name ->
  get_field body "description" = JString description ->
  name <> EmptyString -> description <> EmptyString ->
  has_nul name = false -> has_nul description = false ->
  let first := run [] (post_playlists body) db in
  let second := run [] (post_playlists body) (state_of first) in
  exists i j,
    response_of first
    = {| status := 201;
         json := JsonRow (PlaylistRow {| Playlist.id := i; Playlist.name := name;
                                        Playlist.description := description |}) |}
    /\ 0 < i
    /\ (i ∉ playlist_ids db)
    /\ playlists (state_of first)
       = (playlists db ++ [ {| Playlist.id := i; Playlist.name := name;
                               Playlist.description := description |} ])%list
    /\ (playlists_id_seq db + 2 <= INT4_MAX ->
        response_of second
        = {| status := 201;
             json := JsonRow (PlaylistRow {| Playlist.id := j; Playlist.name := name;
                                            Playlist.description := description |}) |})
    /\ i <> j.
Proof.
  intros Hdb Hseq Hname Hdesc Hn Hd Hn0 Hd0. cbv zeta.
  pose proof (drawn_playlist_id_fresh db Hdb) as Hfresh.
  rewrite (run_post_playlists name description body db Hname Hdesc Hn Hd
             Hn0 Hd0 Hseq Hfresh).
  unfold state_of, response_of. cbn [fst snd].
  pose proof (with_playlist_consistent db name description Hdb Hseq) as Hdb'.
  exists (playlists_id_seq db + 1), (playlists_id_seq db + 1 + 1).
  split; [reflexivity |].
  split; [pose proof (playlists_id_seq_nonneg db Hdb); lia |].
  split; [exact Hfresh |].
  split; [reflexivity |]. split; [| lia].
  intros Hseq'.
  rewrite (run_post_playlists name description body _ Hname Hdesc Hn Hd Hn0 Hd0)
    by (try apply (drawn_playlist_id_fresh _ Hdb'); simpl; lia).
  reflexivity.
Qed.

Lemma create_playlist_succeeds_witness :
  exists i,
    response_of (run [] (post_playlists (playlist_body "X" "Y")) jukebox)
    = {| status := 201;
         json := JsonRow (PlaylistRow {| Playlist.id := i; Playlist.name := "X";
                                        Playlist.description := "Y" |}) |}
    /\ 0 < i.
Proof.
  destruct (create_playlist_succeeds "X" "Y" (playlist_body "X" "Y") jukebox
              jukebox_consistent)
    as (i & j & Hfirst & Hpos & _); try (vm_compute; reflexivity);
    try discriminate.
  exists i. split; assumption.
Defined.

(** C7, as stated, fails.  Each of these POSTs has a body with two non-empty
    strings and is answered 500: in [jukebox] with a name that holds U+0000,
    which [TEXT] refuses (SQLSTATE 22021); in [exhausted], where the
    sequence behind [playlists.id] has no value left (SQLSTATE 2200H); in
    [restored], where the identifier drawn is the one of a stored playlist
    (SQLSTATE 23505 on the primary key). *)
Lemma create_playlist_refused :
  let failed :=
    server_error "Internal server error while creating playlist" in
  let nul := String "000"%char EmptyString in
  run [] (post_playlists (playlist_body nul "Y")) jukebox
  = (failed, jukebox, [(InsertPlaylist nul "Y", Throws invalid_byte_sequence)])
  /\ run [] (post_playlists (playlist_body "X" "Y")) exhausted
     = (failed, exhausted, [(InsertPlaylist "X" "Y", Throws sequence_exhausted)])
  /\ run [] (post_playlists (playlist_body "X" "Y")) restored
     = (failed, drawn_playlist restored,
        [(InsertPlaylist "X" "Y",
          Throws (constraint_error unique_violation playlists_pkey))]).
Proof.
  cbv zeta. split; [vm_compute; reflexivity |].
  split; vm_compute; reflexivity.
Qed.

(** C8.  In a state that satisfies the schema and with the store answering,
    GET /tracks and GET /playlists answer 200 with all the stored rows, in
    ascending order of identifier; the answer is the same for any other
    insertion order of those rows. *)
Theorem listings_ordered_by_id db :
  consistent db ->
  (exists listed,
      response_of (run [] get_tracks db)
      = {| status := 200; json := JsonRows (TrackRow <$> listed) |}
      /\ listed ≡ₚ tracks db
      /\ StronglySorted (key_lt Track.id) listed
      /\ forall db', tracks db' ≡ₚ tracks db ->
           response_of (run [] get_tracks db')
           = response_of (run [] get_tracks db))
  /\ (exists listed,
      response_of (run [] get_playlists db)
      = {| status := 200; json := JsonRows (PlaylistRow <$> listed) |}
      /\ listed ≡ₚ playlists db
      /\ StronglySorted (key_lt Playlist.id) listed
      /\ forall db', playlists db' ≡ₚ playlists db ->
           response_of (run [] get_playlists db')
           = response_of (run [] get_playlists db)).
Proof.
  intros Hdb. split.
  - exists (order_tracks_by_id (tracks db)).
    split; [reflexivity |].
    split; [apply merge_sort_Permutation |].
    split; [apply order_tracks_strictly, (tracks_pk db Hdb) |].
    intros db' Hperm. unfold get_tracks, response_of. simpl.
    rewrite (order_tracks_insertion_order (tracks db) (tracks db'));
      [reflexivity | apply (tracks_pk db Hdb) | symmetry; exact Hperm].
  - exists (order_playlists_by_id (playlists db)).
    split; [reflexivity |].
    split; [apply merge_sort_Permutation |].
    split; [apply order_playlists_strictly, (playlists_pk db Hdb) |].
    intros db' Hperm. unfold get_playlists, response_of. simpl.
    rewrite (order_playlists_insertion_order (playlists db) (playlists db'));
      [reflexivity | apply (playlists_pk db Hdb) | symmetry; exact Hperm].
Qed.

Lemma listings_ordered_by_id_witness :
  exists listed,
    response_of (run [] get_tracks jukebox)
    = {| status := 200; json := JsonRows (TrackRow <$> listed) |}
    /\ listed ≡ₚ tracks jukebox.
Proof.
  destruct (listings_ordered_by_id jukebox jukebox_consistent)
    as [(listed & Hres & Hperm & _) _].
  exists listed. split; assumption.
Defined.

(** C9.  When POST /playlists/:id/tracks answers anything but 201, the rows
    of the three tables are the rows from before the request: whatever the
    input, the state and the behaviour of the storage layer. *)
Theorem post_playlist_tracks_failure_keeps_records faults id body db :
  status (response_of (run faults (post_playlist_tracks id body) db)) <> 201 ->
  records (state_of (run faults (post_playlist_tracks id body) db)) = records db.
Proof.
  unfold post_playlist_tracks.
  destruct (isValidId id); cbn [negb]; [| reflexivity].
  destruct (truthy body); cbn [negb]; [| reflexivity].
  destruct (get_field body "trackId") as [| | b | trackId | | s | items | fields];
    try reflexivity.
  destruct (trackId <=? 0); [reflexivity |].
  select_step. destruct result as [[| row rows] | e]; try reflexivity.
  select_step. destruct result as [[| row' rows'] | e]; try reflexivity.
  query_step. destruct result as [[| playlistTrack rows''] | e].
  - simpl. intros H. contradiction H; reflexivity.
  - simpl. intros H. contradiction H; reflexivity.
  - intros _.
    match goal with
    | H : answer _ (InsertPlaylistTrack _ _) _ = _ |- _ =>
        apply answer_insert_playlist_track_throws in H;
        destruct (decide (code e = Some "23505")); simpl; exact H
    end.
Qed.

Lemma post_playlist_tracks_failure_keeps_records_witness :
  records (state_of (run [] (post_playlist_tracks "1" (trackId_body 3)) jukebox))
  = records jukebox.
Proof.
  apply (post_playlist_tracks_failure_keeps_records [] "1" (trackId_body 3) jukebox).
  vm_compute. discriminate.
Defined.

(** C10.  A GET request leaves the persisted state as it was, whatever the
    input, the state and the behaviour of the storage layer, and every
    statement it issues is a SELECT. *)
Theorem get_requests_read_only faults req db :
  is_get req = true ->
  state_of (run faults (handler req) db) = db
  /\ Forall (fun call => is_select call.1 = true)
            (calls_of (run faults (handler req) db)).
Proof.
  destruct req as [| id | | body | id | id | id body]; intros Hget;
    try discriminate Hget; unfold handler.
  - unfold get_tracks. select_step. destruct result; simpl; auto.
  - unfold get_track. destruct (isValidId id); cbn [negb]; [| simpl; auto].
    select_step. destruct result as [[| row rows] | e]; simpl; auto.
  - unfold get_playlists. select_step. destruct result; simpl; auto.
  - unfold get_playlist. destruct (isValidId id); cbn [negb]; [| simpl; auto].
    select_step. destruct result as [[| row rows] | e]; simpl; auto.
  - unfold get_playlist_tracks. destruct (isValidId id); cbn [negb]; [| simpl; auto].
    select_step. destruct result as [[| row rows] | e]; try solve [simpl; auto].
    select_step. destruct result; simpl; auto.
Qed.

Lemma get_requests_read_only_witness :
  state_of (run [Some syntax_error] (handler (GET_playlist_tracks "1")) jukebox)
  = jukebox
  /\ state_of (run [] (handler GET_tracks) jukebox) = jukebox.
Proof.
  split.
  - apply (get_requests_read_only [Some syntax_error] (GET_playlist_tracks "1")
             jukebox). reflexivity.
  - apply (get_requests_read_only [] GET_tracks jukebox). reflexivity.
Defined.


(* ===================================================================== *)
(** * Further properties of the handlers *)
(* ===================================================================== *)

(** ** Lookups by identifier *)

Lemma filter_key_absent {A} (key : A -> Z) (l : list A) z :
  z ∉ key <$> l -> filter (fun x => key x = z) l = [].
Proof.
  induction l as [| x l IH]; intros H; [reflexivity |].
  rewrite fmap_cons in H. apply not_elem_of_cons in H as [Hne Hl].
  rewrite filter_cons_False by congruence. apply IH. exact Hl.
Qed.

Lemma filter_key_unique {A} (key : A -> Z) (l : list A) x :
  NoDup (key <$> l) -> x ∈ l -> filter (fun y => key y = key x) l = [x].
Proof.
  induction l as [| a l IH]; intros Hnd Hx.
  - apply not_elem_of_nil in Hx. contradiction.
  - rewrite fmap_cons in Hnd. apply NoDup_cons in Hnd as [Ha Hnd].
    apply elem_of_cons in Hx as [-> | Hx].
    + rewrite filter_cons_True by reflexivity. f_equal.
      apply filter_key_absent. exact Ha.
    + rewrite filter_cons_False; [apply IH; assumption |].
      intros Heq. apply Ha. rewrite Heq. apply list_elem_of_fmap_2. exact Hx.
Qed.

Lemma exec_track_by_id id p db :
  param_int id = inr p ->
  exec (SelectTrackById id) db
  = (Rows (TrackRow <$> filter (fun t => Track.id t = p) (tracks db)), db).
Proof. intros H. simpl. rewrite (with_int_inr _ _ _ _ H). reflexivity. Qed.

Lemma exec_playlist_by_id id p db :
  param_int id = inr p ->
  exec (SelectPlaylistById id) db
  = (Rows (PlaylistRow <$> filter (fun x => Playlist.id x = p) (playlists db)),
     db).
Proof. intros H. simpl. rewrite (with_int_inr _ _ _ _ H). reflexivity. Qed.

(** A validated identifier spells a positive integer. *)
Lemma valid_id_positive id p :
  isValidId id = true -> int_of_text id = Some p -> 0 < p.
Proof.
  intros Hid Hp. destruct (isValidId_int_of_text id Hid) as (p' & Hp' & Hpos).
  congruence.
Qed.

(** X1.  GET /tracks/:id, the store answering: 400 without any call when
    the identifier is not valid, whatever the storage layer does; with a
    valid identifier, 500 when it is beyond [INT4_MAX], which the server
    refuses to read as an [INTEGER], 404 when it is at most [INT4_MAX] and
    no track has it and, in a state that satisfies the schema, 200 with the
    one track that has it. *)
Theorem get_track_outcomes id db :
  (forall faults,
      isValidId id = false ->
      run faults (get_track id) db
      = (bad_request "Track ID must be a valid positive integer", db, []))
  /\ (forall p,
      isValidId id = true -> int_of_text id = Some p -> INT4_MAX < p ->
      run [] (get_track id) db
      = (server_error "Internal server error while fetching track", db,
         [(SelectTrackById (PText id), Throws out_of_range)]))
  /\ (forall p,
      isValidId id = true -> int_of_text id = Some p -> p <= INT4_MAX ->
      p ∉ track_ids db ->
      run [] (get_track id) db
      = (not_found "Track not found", db,
         [(SelectTrackById (PText id), Rows [])]))
  /\ (forall t,
      consistent db -> isValidId id = true ->
      int_of_text id = Some (Track.id t) -> t ∈ tracks db ->
      run [] (get_track id) db
      = ({| status := 200; json := JsonRow (TrackRow t) |}, db,
         [(SelectTrackById (PText id), Rows [TrackRow t])])).
Proof.
  unfold get_track. split; [intros faults ->; reflexivity |].
  split; [| split].
  - intros p -> Hp Hmax. cbn [negb]. rewrite run_query. unfold answer.
    simpl exec. rewrite (with_int_inl _ _ _ _ (param_text_above id p Hp Hmax)).
    reflexivity.
  - intros p Hid Hp Hmax Hno. rewrite Hid. cbn [negb].
    pose proof (valid_id_positive id p Hid Hp) as Hpos.
    apply param_text_int in Hp; [| lia].
    rewrite run_query. unfold answer. rewrite (exec_track_by_id _ _ _ Hp).
    rewrite (filter_key_absent Track.id _ _ Hno). reflexivity.
  - intros t Hdb -> Hp Ht. cbn [negb]. rewrite run_query. unfold answer.
    apply param_text_int in Hp;
      [| apply (track_id_range db _ Hdb), list_elem_of_fmap_2; exact Ht].
    rewrite (exec_track_by_id _ _ _ Hp).
    rewrite (filter_key_unique Track.id _ _ (tracks_pk db Hdb) Ht). reflexivity.
Qed.

Lemma get_track_outcomes_witness :
  run [] (get_track "01") jukebox
  = (bad_request "Track ID must be a valid positive integer", jukebox, [])
  /\ response_of (run [] (get_track "2147483648") jukebox)
     = server_error "Internal server error while fetching track"
  /\ response_of (run [] (get_track "7") jukebox) = not_found "Track not found"
  /\ response_of (run [] (get_track "2") jukebox)
     = {| status := 200;
          json := JsonRow (TrackRow {| Track.id := 2; Track.name := "Respect";
                                       Track.duration_ms := 147000 |}) |}.
Proof.
  destruct (get_track_outcomes "01" jukebox) as (Hbad & _ & _ & _).
  destruct (get_track_outcomes "2147483648" jukebox) as (_ & Hbeyond & _ & _).
  destruct (get_track_outcomes "7" jukebox) as (_ & _ & Hnone & _).
  destruct (get_track_outcomes "2" jukebox) as (_ & _ & _ & Hone).
  split; [apply Hbad; vm_compute; reflexivity |].
  split; [rewrite (Hbeyond 2147483648); vm_compute; reflexivity |]. split.
  - rewrite (Hnone 7);
      [reflexivity | vm_compute; reflexivity | vm_compute; reflexivity
       | vm_compute; discriminate |].
    apply (bool_decide_unpack _); vm_compute; exact I.
  - rewrite (Hone {| Track.id := 2; Track.name := "Respect";
                     Track.duration_ms := 147000 |});
      [reflexivity | exact jukebox_consistent | vm_compute; reflexivity .. |].
    apply list_elem_of_further, list_elem_of_here.
Defined.

(** X2.  GET /playlists/:id, the store answering: 400 without any call
    when the identifier is not valid, whatever the storage layer does; with
    a valid identifier, 500 when it is beyond [INT4_MAX], which the server
    refuses to read as an [INTEGER], 404 when it is at most [INT4_MAX] and
    no playlist has it and, in a state that satisfies the schema, 200 with
    the one playlist that has it. *)
Theorem get_playlist_outcomes id db :
  (forall faults,
      isValidId id = false ->
      run faults (get_playlist id) db
      = (bad_request "Playlist ID must be a valid positive integer", db, []))
  /\ (forall p,
      isValidId id = true -> int_of_text id = Some p -> INT4_MAX < p ->
      run [] (get_playlist id) db
      = (server_error "Internal server error while fetching playlist", db,
         [(SelectPlaylistById (PText id), Throws out_of_range)]))
  /\ (forall p,
      isValidId id = true -> int_of_text id = Some p -> p <= INT4_MAX ->
      p ∉ playlist_ids db ->
      run [] (get_playlist id) db
      = (not_found "Playlist not found", db,
         [(SelectPlaylistById (PText id), Rows [])]))
  /\ (forall x,
      consistent db -> isValidId id = true ->
      int_of_text id = Some (Playlist.id x) -> x ∈ playlists db ->
      run [] (get_playlist id) db
      = ({| status := 200; json := JsonRow (PlaylistRow x) |}, db,
         [(SelectPlaylistById (PText id), Rows [PlaylistRow x])])).
Proof.
  unfold get_playlist. split; [intros faults ->; reflexivity |].
  split; [| split].
  - intros p -> Hp Hmax. cbn [negb]. rewrite run_query. unfold answer.
    simpl exec. rewrite (with_int_inl _ _ _ _ (param_text_above id p Hp Hmax)).
    reflexivity.
  - intros p Hid Hp Hmax Hno. rewrite Hid. cbn [negb].
    pose proof (valid_id_positive id p Hid Hp) as Hpos.
    apply param_text_int in Hp; [| lia].
    rewrite run_query. unfold answer. rewrite (exec_playlist_by_id _ _ _ Hp).
    rewrite (filter_key_absent Playlist.id _ _ Hno). reflexivity.
  - intros x Hdb -> Hp Hx. cbn [negb]. rewrite run_query. unfold answer.
    apply param_text_int in Hp;
      [| apply (playlist_id_range db _ Hdb), list_elem_of_fmap_2; exact Hx].
    rewrite (exec_playlist_by_id _ _ _ Hp).
    rewrite (filter_key_unique Playlist.id _ _ (playlists_pk db Hdb) Hx).
    reflexivity.
Qed.

Lemma get_playlist_outcomes_witness :
  run [] (get_playlist "1.5") jukebox
  = (bad_request "Playlist ID must be a valid positive integer", jukebox, [])
  /\ response_of (run [] (get_playlist "9007199254740991") jukebox)
     = server_error "Internal server error while fetching playlist"
  /\ response_of (run [] (get_playlist "999999") jukebox)
     = not_found "Playlist not found"
  /\ response_of (run [] (get_playlist "1") jukebox)
     = {| status := 200;
          json := JsonRow (PlaylistRow
                             {| Playlist.id := 1; Playlist.name := "Chill Vibes";
                                Playlist.description := "Relaxing tracks" |}) |}.
Proof.
  destruct (get_playlist_outcomes "1.5" jukebox) as (Hbad & _ & _ & _).
  destruct (get_playlist_outcomes "9007199254740991" jukebox)
    as (_ & Hbeyond & _ & _).
  destruct (get_playlist_outcomes "999999" jukebox) as (_ & _ & Hnone & _).
  destruct (get_playlist_outcomes "1" jukebox) as (_ & _ & _ & Hone).
  split; [apply Hbad; vm_compute; reflexivity |].
  split; [rewrite (Hbeyond 9007199254740991); vm_compute; reflexivity |]. split.
  - rewrite (Hnone 999999);
      [reflexivity | vm_compute; reflexivity | vm_compute; reflexivity
       | vm_compute; discriminate |].
    apply (bool_decide_unpack _); vm_compute; exact I.
  - rewrite (Hone {| Playlist.id := 1; Playlist.name := "Chill Vibes";
                     Playlist.description := "Relaxing tracks" |});
      [reflexivity | exact jukebox_consistent | vm_compute; reflexivity .. |].
    apply list_elem_of_here.
Defined.

(** ** What one statement can do to the state *)

Lemma answer_insert_playlist_track faults a b db o db' :
  answer faults (InsertPlaylistTrack a b) db = (o, db') ->
  (exists e, o = Throws e /\ (db' = db \/ db' = drawn_playlist_track db))
  \/ (exists p t,
        param_int a = inr p /\ param_int b = inr t
        /\ ((p, t) ∉ playlist_track_pairs db)
        /\ (playlists_tracks_id_seq db + 1 ∉ playlist_track_ids db)
        /\ p ∈ playlist_ids db /\ t ∈ track_ids db
        /\ o = Rows [PlaylistTrackRow (new_playlist_track db p t)]
        /\ db' = with_playlist_track db (new_playlist_track db p t)).
Proof.
  unfold answer. intros H.
  destruct faults as [| [e |] faults];
    [| inversion H; left; eauto |].
  all: cbn [exec] in H; unfold with_int in H.
  all: destruct (param_int a) as [ea | p]; [inversion H; left; eauto |].
  all: destruct (param_int b) as [eb | t]; [inversion H; left; eauto |].
  all: unfold insert_playlist_track in H.
  all: destruct (decide _) as [| Hmax] in H; [inversion H; left; eauto |].
  all: destruct (decide _) as [| Hid] in H; [inversion H; left; eauto |].
  all: destruct (decide _) as [| Hpair] in H; [inversion H; left; eauto |].
  all: destruct (decide _) as [| Hp] in H; [inversion H; left; eauto |].
  all: destruct (decide _) as [| Ht] in H; [inversion H; left; eauto |].
  all: apply dec_stable in Hp; apply dec_stable in Ht.
  all: inversion H; right; exists p, t; repeat split; assumption.
Qed.

Lemma answer_insert_playlist faults name description db o db' :
  answer faults (InsertPlaylist name description) db = (o, db') ->
  (exists e, o = Throws e /\ (db' = db \/ db' = drawn_playlist db))
  \/ ((playlists_id_seq db + 1 ∉ playlist_ids db)
      /\ o = Rows [PlaylistRow (new_playlist db name description)]
      /\ db' = with_playlist db (new_playlist db name description)).
Proof.
  unfold answer. intros H.
  destruct faults as [| [e |] faults];
    [| inversion H; left; eauto |].
  all: cbn [exec] in H; unfold insert_playlist in H.
  all: destruct (has_nul name || has_nul description) in H;
    [inversion H; left; eauto |].
  all: destruct (decide _) as [| Hmax] in H; [inversion H; left; eauto |].
  all: destruct (decide _) as [| Hid] in H; [inversion H; left; eauto |].
  all: inversion H; right; repeat split; assumption.
Qed.

(** X3.  A 201 from POST /playlists/:id/tracks means one row was stored:
    whatever the input, the state and the behaviour of the storage layer,
    the body sent is the new association, it is the only change to the
    tables, it joins the playlist of the route with the track of the body,
    both of which exist, the pair was not stored before and neither was the
    identifier. *)
Theorem post_playlist_tracks_created faults id body db :
  status (response_of (run faults (post_playlist_tracks id body) db)) = 201 ->
  exists p t,
    isValidId id = true /\ int_of_text id = Some p
    /\ get_field body "trackId" = JInt t /\ 0 < t
    /\ p ∈ playlist_ids db /\ t ∈ track_ids db
    /\ ((p, t) ∉ playlist_track_pairs db)
    /\ (PlaylistTrack.id (new_playlist_track db p t) ∉ playlist_track_ids db)
    /\ response_of (run faults (post_playlist_tracks id body) db)
       = {| status := 201;
            json := JsonRow (PlaylistTrackRow (new_playlist_track db p t)) |}
    /\ state_of (run faults (post_playlist_tracks id body) db)
       = with_playlist_track db (new_playlist_track db p t).
Proof.
  unfold post_playlist_tracks.
  destruct (isValidId id); cbn [negb]; [| discriminate].
  destruct (truthy body); cbn [negb]; [| discriminate].
  destruct (get_field body "trackId") as [| | b | t | | s | items | fields];
    try discriminate.
  destruct (t <=? 0) eqn:Et; [discriminate |]. apply Z.leb_gt in Et.
  select_step. destruct result as [[| row rows] | e]; try discriminate.
  select_step. destruct result as [[| row' rows'] | e]; try discriminate.
  query_step.
  match goal with
  | H : answer _ (InsertPlaylistTrack _ _) _ = _ |- _ =>
      apply answer_insert_playlist_track in H
        as [(e & -> & _) | (p & t' & Hp & Ht & Hpair & Hid & Hpl & Htr & -> & ->)]
  end.
  - destruct (decide (code e = Some "23505")); discriminate.
  - intros _. apply param_int_text in Hp as [Hp _].
    apply (param_number_inv t t' Et) in Ht. subst t'.
    exists p, t. repeat split; assumption.
Qed.

Lemma post_playlist_tracks_created_witness :
  exists p t,
    int_of_text "2" = Some p /\ get_field (trackId_body 3) "trackId" = JInt t
    /\ state_of (run [] (post_playlist_tracks "2" (trackId_body 3)) jukebox)
       = with_playlist_track jukebox (new_playlist_track jukebox p t).
Proof.
  destruct (post_playlist_tracks_created [] "2" (trackId_body 3) jukebox)
    as (p & t & _ & Hp & Ht & _ & _ & _ & _ & _ & _ & Hstate);
    [vm_compute; reflexivity |].
  exists p, t. split; [exact Hp |]. split; [exact Ht | exact Hstate].
Defined.

(** Follow a handler through every branch it can take: each [db.query]
    gives no row, some rows, or throws. *)
Ltac walk :=
  unfold get_tracks, get_track, get_playlists, post_playlists, get_playlist,
    get_playlist_tracks, post_playlist_tracks;
  repeat match goal with
    | |- context [negb (isValidId ?id)] => destruct (isValidId id); cbn [negb]
    | |- context [negb (truthy ?v) || negb (truthy ?w)] =>
        destruct (negb (truthy v) || negb (truthy w)) eqn:?
    | |- context [negb (truthy ?v)] => destruct (truthy v) eqn:?; cbn [negb]
    | |- context [get_field ?b ?k] => destruct (get_field b k) eqn:?
    | |- context [?t <=? 0] => destruct (t <=? 0) eqn:?
    | |- context [run ?f (DbQuery ?q ?k) ?db] =>
        rewrite (run_query f q k db);
        destruct (answer f q db) as [[[| ? ?] | ?] ?] eqn:?;
        cbv beta iota
    | |- context [decide (code ?e = Some "23505")] =>
        destruct (decide (code e = Some "23505"))
    end.

(** X4.  Every answer of the seven routes has status 200, 201, 400, 404 or
    500; its body is [{ error: message }] exactly when the status is 400 or
    more; a GET never answers 201 and a POST never answers 200. *)
Theorem responses_are_well_formed faults req db :
  let r := response_of (run faults (handler req) db) in
  (status r = 200 \/ status r = 201 \/ status r = 400 \/ status r = 404
   \/ status r = 500)
  /\ (400 <= status r <-> exists message, json r = JsonError message)
  /\ (is_get req = true -> status r <> 201)
  /\ (is_get req = false -> status r <> 200).
Proof.
  cbv zeta. destruct req as [| id | | body | id | id | id body]; unfold handler.
  all: walk.
  all: simpl.
  all: split; [lia |].
  all: split; [split; [intros; try lia; eauto | intros [m Hm]; try discriminate Hm; lia] |].
  all: split; [intros H; try discriminate H; lia | intros H; try discriminate H; lia].
Qed.

Lemma responses_are_well_formed_witness :
  status (response_of (run [] (handler (GET_track "2")) jukebox)) <> 201
  /\ status (response_of
               (run [Some syntax_error]
                    (handler (POST_playlists (playlist_body "X" "Y"))) jukebox))
     <> 200.
Proof.
  split.
  - apply (responses_are_well_formed [] (GET_track "2") jukebox). reflexivity.
  - apply (responses_are_well_formed [Some syntax_error]
             (POST_playlists (playlist_body "X" "Y")) jukebox). reflexivity.
Defined.



Lemma truthy_string_inv s : truthy (JString s) = true -> s <> EmptyString.
Proof. simpl. intros H ->. discriminate H. Qed.

(** X6.  POST /playlists, whatever the storage layer does.  It answers 400
    exactly when [name] and [description] are not both non-empty strings,
    and then makes no call; a 201 carries the row that was stored, with the
    two strings of the body and an identifier no playlist had, and that row
    is the only change; any other answer leaves the rows as they were. *)
Theorem post_playlists_outcomes faults body db :
  let r := run faults (post_playlists body) db in
  (status (response_of r) = 400
   <-> ~ exists name description, playlist_fields body name description)
  /\ (status (response_of r) = 400 -> calls_of r = [] /\ state_of r = db)
  /\ (status (response_of r) = 201 ->
      exists name description,
        playlist_fields body name description
        /\ (Playlist.id (new_playlist db name description) ∉ playlist_ids db)
        /\ response_of r
           = {| status := 201;
                json := JsonRow (PlaylistRow (new_playlist db name description)) |}
        /\ state_of r = with_playlist db (new_playlist db name description))
  /\ (status (response_of r) <> 201 -> records (state_of r) = records db).
Proof.
  cbv zeta. unfold post_playlists.
  destruct (truthy body) eqn:Hbody; cbn [negb].
  2: { simpl. split; [| split; [auto | split; [discriminate | reflexivity]]].
       split; [| reflexivity]. intros _ (n & d & Hn & _).
       destruct body; simpl in Hbody, Hn; discriminate. }
  destruct (get_field body "name") as [| | b | z | | n | items | fields] eqn:Hname;
    destruct (get_field body "description")
      as [| | b' | z' | | d | items' | fields'] eqn:Hdesc.
  all: try (destruct (negb _ || negb _);
            (simpl;
             split; [split; [intros _ (n0 & d0 & H1 & H2 & _);
                             unfold playlist_fields in *; congruence
                            | intros _; reflexivity] |];
             split; [auto |]; split; [discriminate | intros _; reflexivity])).
  destruct (truthy (JString n)) eqn:Hn; destruct (truthy (JString d)) eqn:Hd;
    cbn [negb orb].
  2-4: simpl; split;
    [split; [intros _ (n0 & d0 & H1 & H2 & Hn0 & Hd0);
             rewrite Hname in H1; rewrite Hdesc in H2;
             inversion H1; inversion H2; subst;
             first [ rewrite (truthy_string _ Hn0) in Hn; discriminate
                   | rewrite (truthy_string _ Hd0) in Hd; discriminate ]
            | intros _; reflexivity] |];
    (split; [auto |]; split; [discriminate | intros _; reflexivity]).
  apply truthy_string_inv in Hn, Hd.
  assert (playlist_fields body n d) as Hok by (repeat split; assumption).
  query_step.
  match goal with
  | H : answer _ (InsertPlaylist _ _) _ = _ |- _ =>
      apply answer_insert_playlist in H
        as [(e & -> & Hstate) | (Hid & -> & ->)]
  end.
  - simpl. split; [split; [discriminate | intros H; exfalso; apply H; eauto] |].
    split; [discriminate |]. split; [discriminate |].
    intros _. destruct Hstate as [-> | ->]; reflexivity.
  - simpl. split; [split; [discriminate | intros H; exfalso; apply H; eauto] |].
    split; [discriminate |]. split; [| intros H; contradiction H; reflexivity].
    intros _. exists n, d. repeat split; try assumption; apply Hok.
Qed.

Lemma post_playlists_outcomes_witness :
  (exists name description,
      playlist_fields (playlist_body "X" "Y") name description
      /\ state_of (run [] (post_playlists (playlist_body "X" "Y")) jukebox)
         = with_playlist jukebox (new_playlist jukebox name description))
  /\ calls_of (run [] (post_playlists (playlist_body "X" EmptyString)) jukebox)
     = [].
Proof.
  split.
  - destruct (post_playlists_outcomes [] (playlist_body "X" "Y") jukebox)
      as (_ & _ & Hcreated & _).
    destruct Hcreated as (name & description & Hfields & _ & _ & Hstate);
      [vm_compute; reflexivity |].
    exists name, description. split; [exact Hfields | exact Hstate].
  - destruct (post_playlists_outcomes [] (playlist_body "X" EmptyString) jukebox)
      as (_ & Hbad & _).
    apply Hbad. vm_compute; reflexivity.
Defined.

(** ** What the handlers never do *)

Lemma grown_refl db : grown db db.
Proof. split; reflexivity || lia. Qed.

Lemma grown_trans a b c : grown a b -> grown b c -> grown a c.
Proof.
  intros [] []. split; try congruence; try lia; etransitivity; eassumption.
Qed.

Lemma exec_grown q db : grown db (exec q db).2.
Proof.
  destruct (is_select q) eqn:E.
  - rewrite exec_select_state by exact E. apply grown_refl.
  - destruct q; try discriminate E; cbn [exec].
    + unfold insert_playlist.
      destruct (has_nul name || has_nul description); [apply grown_refl |].
      destruct (decide (INT4_MAX <= _)); [apply grown_refl |].
      destruct (decide _); simpl;
        split; simpl; try reflexivity; try lia; apply prefix_app_r; reflexivity.
    + unfold with_int. destruct (param_int playlist_id); [apply grown_refl |].
      destruct (param_int track_id); [apply grown_refl |].
      unfold insert_playlist_track.
      destruct (decide (INT4_MAX <= _)); [apply grown_refl |].
      repeat (destruct (decide _); simpl;
              [split; simpl; try reflexivity; lia |]).
      split; simpl; try reflexivity; try lia. apply prefix_app_r; reflexivity.
Qed.

Lemma run_grown h : forall faults db, grown db (state_of (run faults h db)).
Proof.
  induction h as [r | q k IH]; intros faults db; [apply grown_refl |].
  rewrite run_query.
  assert (grown db (answer faults q db).2) as Hq.
  { unfold answer. destruct faults as [| [e |] faults];
      try apply exec_grown. apply grown_refl. }
  destruct (answer faults q db) as [result db']. cbn [snd] in Hq.
  specialize (IH result (tail faults) db').
  destruct (run (tail faults) (k result) db') as [[r db''] calls].
  exact (grown_trans _ _ _ Hq IH).
Qed.

(** X7.  No request deletes or rewrites a row, whatever the storage layer
    does: the tracks are left exactly as they were, the playlists and the
    associations stored before are still there, in place, in front of any
    new one, and no sequence goes back. *)
Theorem requests_only_append faults req db :
  grown db (state_of (run faults (handler req) db)).
Proof. apply run_grown. Qed.

(** X8.  Every request leaves a state that satisfies the schema (primary
    keys, the uniqueness of (playlist, track), the foreign keys,
    identifiers drawn from their sequences) when it starts from one,
    whatever the storage layer does. *)
Theorem requests_keep_the_schema faults req db :
  consistent db -> consistent (state_of (run faults (handler req) db)).
Proof. apply run_consistent. Qed.

Lemma requests_keep_the_schema_witness :
  consistent
    (state_of (run [] (handler (POST_playlist_tracks "2" (trackId_body 3)))
                   jukebox)).
Proof.
  apply (requests_keep_the_schema [] (POST_playlist_tracks "2" (trackId_body 3))
           jukebox).
  exact jukebox_consistent.
Defined.

(** ** Runs in which the store answers every call *)

Lemma run_get_playlist_tracks id p db :
  isValidId id = true -> param_int (PText id) = inr p -> p ∈ playlist_ids db ->
  response_of (run [] (get_playlist_tracks id) db)
  = {| status := 200;
       json := JsonRows (TrackRow <$>
                           order_tracks_by_id (join_playlist_tracks db p)) |}.
Proof.
  intros Hid Hp Hpl. unfold get_playlist_tracks. rewrite Hid. cbn [negb].
  rewrite run_query. unfold answer. rewrite (exec_playlist_check _ _ _ Hp).
  destruct (filter_eq_present _ _ Hpl) as [rest ->].
  cbv beta iota. rewrite fmap_cons. cbv beta iota.
  rewrite run_query. unfold answer. simpl tail.
  rewrite (exec_playlist_tracks _ _ _ Hp). reflexivity.
Qed.

Lemma run_get_playlist_tracks_refused id e db :
  isValidId id = true -> param_int (PText id) = inl e ->
  run [] (get_playlist_tracks id) db
  = (server_error "Internal server error while fetching playlist tracks", db,
     [(SelectPlaylistIdById (PText id), Throws e)]).
Proof.
  intros Hid Hp. unfold get_playlist_tracks. rewrite Hid. cbn [negb].
  rewrite run_query. unfold answer. cbn [exec].
  rewrite (with_int_inl _ _ _ _ Hp). reflexivity.
Qed.

Lemma run_get_playlist_tracks_no_playlist id p db :
  isValidId id = true -> param_int (PText id) = inr p -> p ∉ playlist_ids db ->
  run [] (get_playlist_tracks id) db
  = (not_found "Playlist not found", db,
     [(SelectPlaylistIdById (PText id), Rows [])]).
Proof.
  intros Hid Hp Hpl. unfold get_playlist_tracks. rewrite Hid. cbn [negb].
  rewrite run_query. unfold answer. rewrite (exec_playlist_check _ _ _ Hp).
  rewrite (filter_eq_absent _ _ Hpl). reflexivity.
Qed.

Lemma run_post_playlist_tracks_no_playlist id p t body db :
  isValidId id = true -> param_int (PText id) = inr p ->
  get_field body "trackId" = JInt t -> 0 < t -> p ∉ playlist_ids db ->
  run [] (post_playlist_tracks id body) db
  = (not_found "Playlist not found", db,
     [(SelectPlaylistIdById (PText id), Rows [])]).
Proof.
  intros Hid Hp Hbody Ht Hpl. unfold post_playlist_tracks.
  rewrite Hid, (get_field_truthy _ _ _ Hbody) by discriminate.
  rewrite Hbody. cbn [negb].
  destruct (t <=? 0) eqn:E; [apply Z.leb_le in E; lia |].
  rewrite run_query. unfold answer. rewrite (exec_playlist_check _ _ _ Hp).
  rewrite (filter_eq_absent _ _ Hpl). reflexivity.
Qed.

Lemma param_refused_is_type_error p e : param_int p = inl e -> is_type_error e.
Proof.
  unfold param_int, int4_of_text, is_type_error.
  destruct (has_nul _); [intros H; inversion H; tauto |].
  destruct (int_of_text _); [destruct (_ && _) |]; intros H; inversion H; tauto.
Qed.

Lemma filter_eq_elem (l : list Z) z x rest :
  filter (fun i => i = z) l = x :: rest -> z ∈ l.
Proof.
  intros H. assert (x ∈ filter (fun i => i = z) l) as Hx
    by (rewrite H; apply list_elem_of_here).
  apply list_elem_of_filter in Hx as [-> Hx]. exact Hx.
Qed.

(** Every call of the run that threw, one case each. *)
Ltac thrown_cases :=
  let H := fresh "H" in
  intros ? ? H; unfold calls_of in H; cbn [run fst snd] in H;
  repeat (apply elem_of_cons in H as [H | H];
          [try discriminate H; inversion H; subst; clear H |]);
  try (apply not_elem_of_nil in H; contradiction).

(** X9.  In a state that satisfies the schema and with the store answering
    every call, no statement of the seven routes violates a primary key or
    a foreign key.  The only constraint that a statement violates is
    [UNIQUE(playlist_id, track_id)], by the insert of a pair that is already
    stored, which is answered 400 "Track is already in this playlist";
    every other refusal comes from the types of the schema (an identifier
    beyond [INTEGER], a sequence at its end, U+0000 in a text) and is
    answered 500. *)
Theorem store_rejects_only_duplicates req db :
  consistent db ->
  let r := run [] (handler req) db in
  forall q e,
    (q, Throws e) ∈ calls_of r ->
    (is_playlist_track_insert q = true /\ is_pair_violation e
     /\ response_of r = bad_request "Track is already in this playlist")
    \/ (is_type_error e /\ status (response_of r) = 500).
Proof.
  intros Hdb. cbv zeta.
  destruct req as [| id | | body | id | id | id body]; unfold handler.
  - unfold get_tracks. rewrite run_query. thrown_cases.
  - unfold get_track. destruct (isValidId id) eqn:Hid; cbn [negb];
      [| thrown_cases].
    rewrite run_query. unfold answer. cbn [exec]. unfold with_int.
    destruct (param_int (PText id)) as [e0 | p] eqn:Hq.
    + thrown_cases. right.
      split; [exact (param_refused_is_type_error _ _ Hq) | reflexivity].
    + destruct (filter _ _); thrown_cases.
  - unfold get_playlists. rewrite run_query. thrown_cases.
  - unfold post_playlists.
    destruct (truthy body) eqn:Hbody; [| thrown_cases]. cbn [negb].
    destruct (negb (truthy (get_field body "name"))
              || negb (truthy (get_field body "description"))) eqn:E;
      [thrown_cases |].
    destruct (get_field body "name") as [| | | | | n | |] eqn:Hname;
      try solve [thrown_cases];
      destruct (get_field body "description") as [| | | | | d | |] eqn:Hdesc;
      try solve [thrown_cases].
    rewrite run_query. unfold answer. cbn [exec]. unfold insert_playlist.
    destruct (has_nul n || has_nul d).
    { thrown_cases. right. split; [unfold is_type_error; tauto | reflexivity]. }
    destruct (decide (INT4_MAX <= playlists_id_seq db)).
    { thrown_cases. right. split; [unfold is_type_error; tauto | reflexivity]. }
    rewrite decide_False by (apply drawn_playlist_id_fresh, Hdb).
    thrown_cases.
  - unfold get_playlist. destruct (isValidId id) eqn:Hid; cbn [negb];
      [| thrown_cases].
    rewrite run_query. unfold answer. cbn [exec]. unfold with_int.
    destruct (param_int (PText id)) as [e0 | p] eqn:Hq.
    + thrown_cases. right.
      split; [exact (param_refused_is_type_error _ _ Hq) | reflexivity].
    + destruct (filter _ _); thrown_cases.
  - destruct (isValidId id) eqn:Hid;
      [| unfold get_playlist_tracks; rewrite Hid; thrown_cases].
    destruct (param_int (PText id)) as [e0 | p] eqn:Hq.
    { rewrite (run_get_playlist_tracks_refused id e0 db Hid Hq).
      thrown_cases. right.
      split; [exact (param_refused_is_type_error _ _ Hq) | reflexivity]. }
    unfold get_playlist_tracks. rewrite Hid. cbn [negb].
    rewrite run_query. unfold answer. rewrite (exec_playlist_check _ _ _ Hq).
    destruct (filter _ _); [thrown_cases |].
    cbv beta iota. rewrite fmap_cons. cbv beta iota.
    rewrite run_query. unfold answer. simpl tail.
    rewrite (exec_playlist_tracks _ _ _ Hq). thrown_cases.
  - unfold post_playlist_tracks.
    destruct (isValidId id) eqn:Hid; cbn [negb]; [| thrown_cases].
    destruct (truthy body) eqn:Hbody; cbn [negb]; [| thrown_cases].
    destruct (get_field body "trackId") as [| | b | t | | s | items | fields]
      eqn:Htrack; try solve [thrown_cases].
    destruct (t <=? 0) eqn:Et; [thrown_cases |]. apply Z.leb_gt in Et.
    rewrite run_query. unfold answer. cbn [exec]. unfold with_int.
    destruct (param_int (PText id)) as [e0 | p] eqn:Hq.
    { thrown_cases. right.
      split; [exact (param_refused_is_type_error _ _ Hq) | reflexivity]. }
    destruct (filter (fun i => i = p) (playlist_ids db)) as [| x rest] eqn:Hpl;
      [thrown_cases |].
    apply filter_eq_elem in Hpl.
    cbv beta iota. rewrite fmap_cons. cbv beta iota.
    rewrite run_query. unfold answer. simpl tail. cbn [exec]. unfold with_int.
    destruct (param_int (PNumber t)) as [e1 | t'] eqn:Hn.
    { thrown_cases. right.
      split; [exact (param_refused_is_type_error _ _ Hn) | reflexivity]. }
    pose proof (param_number_inv t t' Et Hn). subst t'.
    destruct (filter (fun i => i = t) (track_ids db)) as [| y rest'] eqn:Htr;
      [thrown_cases |].
    apply filter_eq_elem in Htr.
    cbv beta iota. rewrite fmap_cons. cbv beta iota.
    rewrite run_query. unfold answer. simpl tail.
    rewrite (exec_insert_playlist_track _ _ _ _ _ Hq Hn).
    unfold insert_playlist_track.
    destruct (decide (INT4_MAX <= playlists_tracks_id_seq db)).
    { thrown_cases. right. split; [unfold is_type_error; tauto | reflexivity]. }
    rewrite decide_False by (apply drawn_id_fresh, Hdb).
    destruct (decide ((p, t) ∈ playlist_track_pairs db)) as [Hpair | Hpair].
    + thrown_cases. left.
      split; [reflexivity |]. split; [split; reflexivity | reflexivity].
    + rewrite decide_False by (intros H; exact (H Hpl)).
      rewrite decide_False by (intros H; exact (H Htr)).
      thrown_cases.
Qed.

Lemma store_rejects_only_duplicates_witness :
  response_of (run [] (handler (POST_playlist_tracks "1" (trackId_body 3)))
                   jukebox)
  = bad_request "Track is already in this playlist"
  \/ status (response_of
               (run [] (handler (POST_playlist_tracks "1" (trackId_body 3)))
                    jukebox)) = 500.
Proof.
  destruct (store_rejects_only_duplicates
              (POST_playlist_tracks "1" (trackId_body 3)) jukebox
              jukebox_consistent
              (InsertPlaylistTrack (PText "1") (PNumber 3))
              (constraint_error unique_violation
                 playlists_tracks_playlist_id_track_id_key))
    as [(_ & _ & Hr) | [_ Hs]].
  - vm_compute. do 2 apply list_elem_of_further. apply list_elem_of_here.
  - left. exact Hr.
  - right. exact Hs.
Defined.

(** X10.  POST /playlists/:id/tracks with a valid identifier of at most
    [INT4_MAX] and a positive integer trackId, the store answering.  A
    playlist that does not exist is answered 404 after the first check,
    whether or not the track exists.  In a state that satisfies the schema,
    a pair that is already stored is answered 400 "Track is already in this
    playlist" while the sequence behind [playlists_tracks.id] has a value
    left, and 500 once it has none; either way the rows are left as they
    were. *)
Theorem post_playlist_tracks_not_found_or_duplicate id p t body db :
  isValidId id = true -> int_of_text id = Some p -> p <= INT4_MAX ->
  get_field body "trackId" = JInt t -> 0 < t ->
  (p ∉ playlist_ids db ->
   run [] (post_playlist_tracks id body) db
   = (not_found "Playlist not found", db,
      [(SelectPlaylistIdById (PText id), Rows [])]))
  /\ (consistent db -> (p, t) ∈ playlist_track_pairs db ->
      response_of (run [] (post_playlist_tracks id body) db)
      = (if decide (playlists_tracks_id_seq db < INT4_MAX)
         then bad_request "Track is already in this playlist"
         else server_error
                "Internal server error while adding track to playlist")
      /\ records (state_of (run [] (post_playlist_tracks id body) db))
         = records db).
Proof.
  intros Hid Hp Hmax Hbody Ht.
  pose proof (valid_id_positive id p Hid Hp) as Hpos.
  apply param_text_int in Hp; [| lia]. split.
  - intros Hno.
    apply (run_post_playlist_tracks_no_playlist id p t body db); assumption.
  - intros Hdb Hpair.
    assert (p ∈ playlist_ids db /\ t ∈ track_ids db) as [Hpl Htr].
    { unfold playlist_track_pairs in Hpair.
      apply list_elem_of_fmap in Hpair as (pt & Heq & Hpt).
      inversion Heq; subst. apply (playlists_tracks_fk db Hdb pt Hpt). }
    pose proof (track_id_range db t Hdb Htr) as Ht'.
    destruct (run_post_playlist_tracks id p t body db Hid Hp Hbody Hpl Htr Ht')
      as (c1 & c2 & ->).
    destruct (decide (playlists_tracks_id_seq db < INT4_MAX)) as [Hseq | Hseq].
    + rewrite (insert_playlist_track_again p t db Hseq
                 (drawn_id_fresh db Hdb) Hpair).
      split; reflexivity.
    + rewrite (insert_playlist_track_exhausted p t db) by lia.
      split; reflexivity.
Qed.

Lemma post_playlist_tracks_not_found_or_duplicate_witness :
  response_of (run [] (post_playlist_tracks "9" (trackId_body 3)) jukebox)
  = not_found "Playlist not found"
  /\ response_of (run [] (post_playlist_tracks "1" (trackId_body 3)) jukebox)
     = bad_request "Track is already in this playlist"
  /\ response_of (run [] (post_playlist_tracks "1" (trackId_body 3)) exhausted)
     = server_error "Internal server error while adding track to playlist".
Proof.
  split; [| split].
  - destruct (post_playlist_tracks_not_found_or_duplicate "9" 9 3
                (trackId_body 3) jukebox) as [Hmissing _];
      [vm_compute; reflexivity | vm_compute; reflexivity
       | vm_compute; discriminate | vm_compute; reflexivity | lia |].
    rewrite Hmissing; [reflexivity |].
    apply (bool_decide_unpack _); vm_compute; exact I.
  - destruct (post_playlist_tracks_not_found_or_duplicate "1" 1 3
                (trackId_body 3) jukebox) as [_ Hstored];
      [vm_compute; reflexivity | vm_compute; reflexivity
       | vm_compute; discriminate | vm_compute; reflexivity | lia |].
    destruct Hstored as [Hr _]; [exact jukebox_consistent | |].
    + apply (bool_decide_unpack _); vm_compute; exact I.
    + rewrite Hr. reflexivity.
  - destruct (post_playlist_tracks_not_found_or_duplicate "1" 1 3
                (trackId_body 3) exhausted) as [_ Hstored];
      [vm_compute; reflexivity | vm_compute; reflexivity
       | vm_compute; discriminate | vm_compute; reflexivity | lia |].
    destruct Hstored as [Hr _]; [exact exhausted_consistent | |].
    + apply (bool_decide_unpack _); vm_compute; exact I.
    + rewrite Hr. reflexivity.
Defined.
(** ** Adding a track, then listing *)

Lemma joined_with_playlist_track db p t q x :
  joined (with_playlist_track db (new_playlist_track db p t)) q x
  = (joined db q x
     ++ (if decide (Track.id x = t /\ p = q) then [x] else []))%list.
Proof.
  unfold joined, with_playlist_track. cbn [playlists_tracks].
  rewrite bind_app, bind_singleton. reflexivity.
Qed.

Lemma join_other_playlist db p t q :
  p <> q ->
  join_playlist_tracks (with_playlist_track db (new_playlist_track db p t)) q
  = join_playlist_tracks db q.
Proof.
  intros Hne. unfold join_playlist_tracks.
  change (tracks (with_playlist_track db (new_playlist_track db p t)))
    with (tracks db).
  induction (tracks db) as [| x l IH]; [reflexivity |].
  rewrite !bind_cons, IH. f_equal.
  rewrite joined_with_playlist_track.
  rewrite decide_False by (intros [_ H]; exact (Hne H)).
  apply app_nil_r.
Qed.

(** X11.  After a track was added to a playlist with 201, the store
    answering: GET /playlists/:id/tracks for that playlist lists the tracks
    it listed before and the added one, and for any other playlist it
    answers exactly what it answered before. *)
Theorem added_track_is_listed id p t body db :
  consistent db ->
  status (response_of (run [] (post_playlist_tracks id body) db)) = 201 ->
  int_of_text id = Some p -> get_field body "trackId" = JInt t ->
  let db' := state_of (run [] (post_playlist_tracks id body) db) in
  (exists before after,
      response_of (run [] (get_playlist_tracks id) db)
      = {| status := 200; json := JsonRows (TrackRow <$> before) |}
      /\ response_of (run [] (get_playlist_tracks id) db')
         = {| status := 200; json := JsonRows (TrackRow <$> after) |}
      /\ (forall x, x ∈ after <-> x ∈ before \/ (x ∈ tracks db /\ Track.id x = t))
      /\ (exists x, x ∈ after /\ Track.id x = t)
      /\ StronglySorted (key_lt Track.id) after)
  /\ (forall id' q,
      isValidId id' = true -> int_of_text id' = Some q -> q <> p ->
      response_of (run [] (get_playlist_tracks id') db')
      = response_of (run [] (get_playlist_tracks id') db)).
Proof.
  intros Hdb H201 Hp Hbody. cbv zeta.
  pose proof (run_consistent (post_playlist_tracks id body) [] db Hdb) as Hdb'.
  revert H201 Hdb'.
  unfold post_playlist_tracks.
  destruct (isValidId id) eqn:Hid; cbn [negb]; [| discriminate].
  destruct (truthy body); cbn [negb]; [| discriminate].
  rewrite Hbody.
  destruct (t <=? 0) eqn:Et; [discriminate |]. apply Z.leb_gt in Et.
  select_step. destruct result as [[| row rows] | e]; try discriminate.
  select_step. destruct result as [[| row' rows'] | e]; try discriminate.
  query_step.
  match goal with
  | H : answer _ (InsertPlaylistTrack _ _) _ = _ |- _ =>
      apply answer_insert_playlist_track in H
        as [(e & -> & _)
           | (p' & t' & Hp' & Ht' & Hpair & Hfresh & Hpl & Htr & -> & ->)]
  end.
  { destruct (decide (code e = Some "23505")); discriminate. }
  pose proof (param_number_inv t t' Et Ht'). subst t'.
  assert (p' = p) as ->
    by (apply param_int_text in Hp' as [Hp' _]; congruence).
  unfold send, state_of. cbn [run fst snd]. intros _ Hdb'.
  set (db' := with_playlist_track db (new_playlist_track db p t)) in *.
  assert (playlist_ids db' = playlist_ids db) as Hids by reflexivity.
  split.
  - exists (order_tracks_by_id (join_playlist_tracks db p)),
      (order_tracks_by_id (join_playlist_tracks db' p)).
    split; [apply run_get_playlist_tracks; assumption |].
    split; [apply run_get_playlist_tracks; [assumption .. | rewrite Hids; exact Hpl] |].
    assert (forall x, x ∈ order_tracks_by_id (join_playlist_tracks db' p)
                      <-> x ∈ order_tracks_by_id (join_playlist_tracks db p)
                          \/ (x ∈ tracks db /\ Track.id x = t)) as Hmem.
    { intros x. unfold order_tracks_by_id.
      rewrite !(merge_sort_Permutation (key_le Track.id)), !elem_of_join.
      unfold db', playlist_track_pairs, with_playlist_track.
      cbn [playlists_tracks tracks]. rewrite fmap_app, elem_of_app.
      fold (playlist_track_pairs db). simpl.
      rewrite list_elem_of_singleton. split.
      - intros [Hx [Hin | Heq]]; [left; auto | right].
        inversion Heq. auto.
      - intros [[Hx Hin] | [Hx Heq]]; (split; [exact Hx |]);
          [left; exact Hin | right; rewrite Heq; reflexivity]. }
    split; [exact Hmem |]. split.
    + apply list_elem_of_fmap in Htr as (x & Hx & Hin). exists x.
      split; [apply Hmem; right; auto | auto].
    + apply order_tracks_strictly.
      apply (sublist_NoDup _ (track_ids db')); [apply (tracks_pk db' Hdb') |].
      apply join_ids_sublist. apply (playlists_tracks_unique db' Hdb').
  - intros id' q Hid' Hq Hne.
    destruct (param_int (PText id')) as [e' | q'] eqn:Hq'.
    { rewrite !(run_get_playlist_tracks_refused id' e') by assumption.
      reflexivity. }
    assert (q' = q) as ->
      by (apply param_int_text in Hq' as [Hq' _]; congruence).
    destruct (decide (q ∈ playlist_ids db)) as [Hin | Hout].
    + rewrite !(run_get_playlist_tracks id' q)
        by (assumption || (rewrite Hids; assumption)).
      unfold db'. rewrite join_other_playlist by congruence. reflexivity.
    + rewrite !(run_get_playlist_tracks_no_playlist id' q)
        by (assumption || (rewrite Hids; assumption)).
      reflexivity.
Qed.

Lemma added_track_is_listed_witness :
  exists after x,
    response_of
      (run [] (get_playlist_tracks "2")
           (state_of (run [] (post_playlist_tracks "2" (trackId_body 3))
                          jukebox)))
    = {| status := 200; json := JsonRows (TrackRow <$> after) |}
    /\ x ∈ after /\ Track.id x = 3.
Proof.
  destruct (added_track_is_listed "2" 2 3 (trackId_body 3) jukebox
              jukebox_consistent)
    as [(before & after & _ & Hafter & _ & (x & Hx & Hid) & _) _];
    [vm_compute; reflexivity | vm_compute; reflexivity
     | vm_compute; reflexivity |].
  exists after, x. split; [exact Hafter |]. split; [exact Hx | exact Hid].
Defined.

(** ** Creating a playlist, then reading it *)

Lemma sorted_last {A} (key : A -> Z) (l : list A) x :
  StronglySorted (key_lt key) l -> x ∈ l ->
  (forall y, y ∈ l -> key y <= key x) -> last l = Some x.
Proof.
  induction 1 as [| a l Hs IH Hall]; intros Hx Hmax.
  - apply not_elem_of_nil in Hx. contradiction.
  - destruct l as [| b l].
    + apply list_elem_of_singleton in Hx. subst. reflexivity.
    + change (last (a :: b :: l)) with (last (b :: l)). apply IH.
      * apply elem_of_cons in Hx as [-> | Hx]; [| exact Hx].
        exfalso. rewrite Forall_forall in Hall.
        specialize (Hall b (list_elem_of_here _ _)).
        specialize (Hmax b (list_elem_of_further _ _ _ (list_elem_of_here _ _))).
        unfold key_lt in Hall. lia.
      * intros y Hy. apply Hmax. apply list_elem_of_further. exact Hy.
Qed.

(** X12.  A playlist can be created and read back, the store answering, in
    a state that satisfies the schema and whose sequence behind
    [playlists.id] has a value left, from a name and a description without
    U+0000: POST /playlists answers 201, GET /playlists/:id with the
    identifier that was returned answers 200 with the row that was returned,
    GET /playlists/:id/tracks answers 200 with no track, and GET /playlists
    lists the new playlist last. *)
Theorem created_playlist_can_be_read name description body db :
  consistent db -> playlist_fields body name description ->
  has_nul name = false -> has_nul description = false ->
  playlists_id_seq db < INT4_MAX ->
  let created := new_playlist db name description in
  let db' := state_of (run [] (post_playlists body) db) in
  let id := JsNum.decimal (Playlist.id created) in
  response_of (run [] (post_playlists body) db)
  = {| status := 201; json := JsonRow (PlaylistRow created) |}
  /\ response_of (run [] (get_playlist id) db')
     = {| status := 200; json := JsonRow (PlaylistRow created) |}
  /\ response_of (run [] (get_playlist_tracks id) db')
     = {| status := 200; json := JsonRows [] |}
  /\ exists listed,
       response_of (run [] get_playlists db')
       = {| status := 200; json := JsonRows (PlaylistRow <$> listed) |}
       /\ last listed = Some created.
Proof.
  intros Hdb (Hname & Hdesc & Hn & Hd) Hn0 Hd0 Hmax. cbv zeta.
  pose proof (drawn_playlist_id_fresh db Hdb) as Hfresh.
  pose proof (playlists_id_seq_nonneg db Hdb) as Hseq.
  rewrite (run_post_playlists name description body db Hname Hdesc Hn Hd
             Hn0 Hd0 Hmax Hfresh).
  unfold state_of, response_of. cbn [fst snd].
  set (created := new_playlist db name description).
  set (db' := with_playlist db created).
  pose proof (with_playlist_consistent db name description Hdb Hmax) as Hdb'.
  fold created in Hdb'. fold db' in Hdb'.
  assert (0 < Playlist.id created <= INT4_MAX) as Hrange by (simpl; lia).
  assert (INT4_MAX <= MAX_SAFE_INTEGER) as Hsafe by (vm_compute; discriminate).
  assert (isValidId (JsNum.decimal (Playlist.id created)) = true) as Hid
    by (apply isValidId_decimal; lia).
  assert (param_int (PText (JsNum.decimal (Playlist.id created)))
          = inr (Playlist.id created)) as Hp
    by (apply param_text_int; [apply decimal_int_of_text; lia | exact Hrange]).
  assert (created ∈ playlists db') as Hin.
  { unfold db', with_playlist. cbn [playlists]. apply elem_of_app. right.
    apply list_elem_of_here. }
  split; [reflexivity |]. split; [| split].
  - unfold get_playlist. rewrite Hid. cbn [negb].
    rewrite run_query. unfold answer. rewrite (exec_playlist_by_id _ _ _ Hp).
    rewrite (filter_key_unique Playlist.id _ _ (playlists_pk db' Hdb') Hin).
    reflexivity.
  - assert (Playlist.id created ∈ playlist_ids db') as Hpl
      by (apply list_elem_of_fmap_2; exact Hin).
    pose proof (run_get_playlist_tracks _ _ db' Hid Hp Hpl) as Hrun.
    unfold response_of in Hrun. rewrite Hrun.
    rewrite join_empty; [reflexivity |].
    intros pt Hpt Heq. change (playlists_tracks db') with (playlists_tracks db) in Hpt.
    destruct (playlists_tracks_fk db Hdb pt Hpt) as [Hfk _].
    rewrite Heq in Hfk. exact (Hfresh Hfk).
  - exists (order_playlists_by_id (playlists db')). split; [reflexivity |].
    apply (sorted_last Playlist.id).
    + apply order_playlists_strictly. apply (playlists_pk db' Hdb').
    + unfold order_playlists_by_id.
      rewrite (merge_sort_Permutation (key_le Playlist.id)). exact Hin.
    + intros y Hy. unfold order_playlists_by_id in Hy.
      rewrite (merge_sort_Permutation (key_le Playlist.id)) in Hy.
      apply (list_elem_of_fmap_2 Playlist.id) in Hy.
      apply (playlists_drawn db' Hdb') in Hy. simpl in Hy. simpl. lia.
Qed.

Lemma created_playlist_can_be_read_witness :
  response_of
    (run [] (get_playlist_tracks "3")
         (state_of (run [] (post_playlists (playlist_body "X" "Y")) jukebox)))
  = {| status := 200; json := JsonRows [] |}.
Proof.
  destruct (created_playlist_can_be_read "X" "Y" (playlist_body "X" "Y") jukebox
              jukebox_consistent) as (_ & _ & Hempty & _).
  - repeat split; try discriminate; vm_compute; reflexivity.
  - vm_compute; reflexivity.
  - vm_compute; reflexivity.
  - vm_compute; reflexivity.
  - exact Hempty.
Defined.

(** ** Identifiers of the route and identifiers of the store *)

(** X13.  A valid route identifier is the one spelling of its integer: two
    valid identifiers that the server reads as the same [INTEGER] are the
    same string; every integer from 1 to [INT4_MAX] has a valid spelling,
    its decimal numeral, which the server reads back as that integer; and a
    valid identifier that spells a larger integer is refused by the server
    (SQLSTATE 22003). *)
Theorem valid_identifiers_are_canonical :
  (forall a b v,
      isValidId a = true -> isValidId b = true ->
      param_int (PText a) = inr v -> param_int (PText b) = inr v -> a = b)
  /\ (forall i,
      0 < i <= INT4_MAX ->
      isValidId (JsNum.decimal i) = true
      /\ param_int (PText (JsNum.decimal i)) = inr i)
  /\ (forall id,
      isValidId id = true ->
      (exists i, 0 < i <= INT4_MAX /\ id = JsNum.decimal i
                 /\ param_int (PText id) = inr i)
      \/ param_int (PText id) = inl out_of_range).
Proof.
  assert (INT4_MAX <= MAX_SAFE_INTEGER) as Hsafe by (vm_compute; discriminate).
  split; [| split].
  - intros a b v Ha Hb Hva Hvb.
    apply param_int_text in Hva as [Hva _]. apply param_int_text in Hvb as [Hvb _].
    rewrite (valid_id_is_decimal a v Ha Hva), (valid_id_is_decimal b v Hb Hvb).
    reflexivity.
  - intros i Hi. split; [apply isValidId_decimal; lia |].
    apply param_text_int; [apply decimal_int_of_text; lia | exact Hi].
  - intros id Hid. destruct (isValidId_int_of_text id Hid) as (p & Hp & Hpos).
    destruct (Z_le_gt_dec p INT4_MAX) as [Hle | Hgt].
    + left. exists p. split; [lia |].
      split; [exact (valid_id_is_decimal id p Hid Hp) |].
      apply param_text_int; [exact Hp | lia].
    + right. apply (param_text_above id p Hp). lia.
Qed.

Lemma valid_identifiers_are_canonical_witness :
  isValidId (JsNum.decimal 42) = true
  /\ param_int (PText (JsNum.decimal 42)) = inr 42.
Proof.
  apply (proj1 (proj2 valid_identifiers_are_canonical) 42).
  split; [lia | vm_compute; discriminate].
Defined.

(** ** What a listing depends on *)

Lemma join_Permutation db db' p :
  consistent db -> consistent db' ->
  tracks db ≡ₚ tracks db' ->
  playlist_track_pairs db ≡ₚ playlist_track_pairs db' ->
  join_playlist_tracks db p ≡ₚ join_playlist_tracks db' p.
Proof.
  intros Hdb Hdb' Htracks Hpairs.
  assert (forall d, consistent d -> NoDup (join_playlist_tracks d p)) as Hnd.
  { intros d Hd. apply (NoDup_fmap_1 Track.id).
    apply (sublist_NoDup _ (track_ids d)); [apply (tracks_pk d Hd) |].
    apply join_ids_sublist, (playlists_tracks_unique d Hd). }
  apply NoDup_Permutation; [apply Hnd; exact Hdb | apply Hnd; exact Hdb' |].
  intros x. rewrite !elem_of_join, Htracks, Hpairs. reflexivity.
Qed.

Lemma reordered_consistent : consistent reordered.
Proof.
  split; try (unfold INT4_MAX; simpl; lia).
  1-4: apply (bool_decide_unpack _); vm_compute; exact I.
  - intros pt Hpt. apply list_elem_of_singleton in Hpt. subst pt.
    split; apply (bool_decide_unpack _); vm_compute; exact I.
  - intros i Hi. vm_compute in Hi.
    repeat (apply elem_of_cons in Hi as [-> | Hi]; [simpl; lia |]).
    apply not_elem_of_nil in Hi. contradiction.
  - intros i Hi. vm_compute in Hi.
    repeat (apply elem_of_cons in Hi as [-> | Hi]; [simpl; lia |]).
    apply not_elem_of_nil in Hi. contradiction.
  - intros i Hi. vm_compute in Hi.
    repeat (apply elem_of_cons in Hi as [-> | Hi]; [simpl; lia |]).
    apply not_elem_of_nil in Hi. contradiction.
Qed.

(** X14.  What GET /playlists/:id/tracks answers depends only on which
    playlists, tracks and memberships are stored: two states that satisfy
    the schema and hold the same tracks, the same playlist identifiers and
    the same (playlist, track) pairs, inserted in any order and under any
    association identifiers, get the same answer. *)
Theorem playlist_listing_ignores_insertion_order id p db db' :
  consistent db -> consistent db' ->
  isValidId id = true -> int_of_text id = Some p ->
  playlist_ids db ≡ₚ playlist_ids db' ->
  tracks db ≡ₚ tracks db' ->
  playlist_track_pairs db ≡ₚ playlist_track_pairs db' ->
  response_of (run [] (get_playlist_tracks id) db')
  = response_of (run [] (get_playlist_tracks id) db).
Proof.
  intros Hdb Hdb' Hid Hp Hplaylists Htracks Hpairs.
  destruct (param_int (PText id)) as [e | p'] eqn:Hq.
  { rewrite !(run_get_playlist_tracks_refused id e) by assumption.
    reflexivity. }
  assert (p' = p) as ->
    by (apply param_int_text in Hq as [Hq _]; congruence).
  destruct (decide (p ∈ playlist_ids db)) as [Hpl | Hpl].
  - rewrite !(run_get_playlist_tracks id p) by (rewrite <- ?Hplaylists; assumption).
    rewrite (order_tracks_insertion_order (join_playlist_tracks db p)
               (join_playlist_tracks db' p)); [reflexivity | |].
    + apply (sublist_NoDup _ (track_ids db)); [apply (tracks_pk db Hdb) |].
      apply join_ids_sublist, (playlists_tracks_unique db Hdb).
    + apply join_Permutation; assumption.
  - assert (p ∉ playlist_ids db') as Hpl' by (rewrite <- Hplaylists; exact Hpl).
    rewrite !(run_get_playlist_tracks_no_playlist id p) by assumption.
    reflexivity.
Qed.

Lemma playlist_listing_ignores_insertion_order_witness :
  response_of (run [] (get_playlist_tracks "1") reordered)
  = response_of (run [] (get_playlist_tracks "1") jukebox).
Proof.
  apply (playlist_listing_ignores_insertion_order "1" 1 jukebox reordered
           jukebox_consistent reordered_consistent).
  - vm_compute; reflexivity.
  - vm_compute; reflexivity.
  - change (playlist_ids reordered) with (reverse (playlist_ids jukebox)).
    symmetry. apply reverse_Permutation.
  - change (tracks reordered) with (reverse (tracks jukebox)).
    symmetry. apply reverse_Permutation.
  - reflexivity.
Defined.

(** ** A row and the identifier that fetches it *)

(** X15.  In a state that satisfies the schema and whose identifiers are
    within Number.MAX_SAFE_INTEGER, the store answering: GET /tracks/:id
    answers 200 with a row exactly when that row is a stored track and the
    identifier of the route is the decimal numeral of its [id]; and the same
    for GET /playlists/:id. *)
Theorem rows_are_fetched_by_their_identifier db :
  consistent db ->
  tracks_id_seq db <= MAX_SAFE_INTEGER ->
  playlists_id_seq db <= MAX_SAFE_INTEGER ->
  (forall id t,
      response_of (run [] (get_track id) db)
      = {| status := 200; json := JsonRow (TrackRow t) |}
      <-> t ∈ tracks db /\ id = JsNum.decimal (Track.id t))
  /\ (forall id x,
      response_of (run [] (get_playlist id) db)
      = {| status := 200; json := JsonRow (PlaylistRow x) |}
      <-> x ∈ playlists db /\ id = JsNum.decimal (Playlist.id x)).
Proof.
  intros Hdb Htracks Hplaylists. split.
  - intros id t. split.
    + unfold get_track. destruct (isValidId id) eqn:Hid; [| discriminate].
      cbn [negb]. rewrite run_query. unfold answer. cbn [exec]. unfold with_int.
      destruct (param_int (PText id)) as [e | p] eqn:Hq; [discriminate |].
      apply param_int_text in Hq as [Hp _].
      destruct (filter _ _) as [| t' rest] eqn:Hrows; [discriminate |].
      intros H. inversion H; subst t'.
      assert (t ∈ filter (fun t => Track.id t = p) (tracks db)) as Hin
        by (rewrite Hrows; apply list_elem_of_here).
      apply list_elem_of_filter in Hin as [Heq Hin].
      split; [exact Hin |]. rewrite Heq. apply valid_id_is_decimal; assumption.
    + intros [Hin ->].
      assert (1 <= Track.id t <= tracks_id_seq db) as Hrange
        by (apply (tracks_drawn db Hdb), list_elem_of_fmap_2; exact Hin).
      pose proof (tracks_id_seq_max db Hdb) as Hmax.
      unfold get_track. rewrite isValidId_decimal by lia. cbn [negb].
      rewrite run_query. unfold answer.
      rewrite (exec_track_by_id _ (Track.id t))
        by (apply param_text_int; [apply decimal_int_of_text |]; lia).
      rewrite (filter_key_unique Track.id _ _ (tracks_pk db Hdb) Hin).
      reflexivity.
  - intros id x. split.
    + unfold get_playlist. destruct (isValidId id) eqn:Hid; [| discriminate].
      cbn [negb]. rewrite run_query. unfold answer. cbn [exec]. unfold with_int.
      destruct (param_int (PText id)) as [e | p] eqn:Hq; [discriminate |].
      apply param_int_text in Hq as [Hp _].
      destruct (filter _ _) as [| x' rest] eqn:Hrows; [discriminate |].
      intros H. inversion H; subst x'.
      assert (x ∈ filter (fun x => Playlist.id x = p) (playlists db)) as Hin
        by (rewrite Hrows; apply list_elem_of_here).
      apply list_elem_of_filter in Hin as [Heq Hin].
      split; [exact Hin |]. rewrite Heq. apply valid_id_is_decimal; assumption.
    + intros [Hin ->].
      assert (1 <= Playlist.id x <= playlists_id_seq db) as Hrange
        by (apply (playlists_drawn db Hdb), list_elem_of_fmap_2; exact Hin).
      pose proof (playlists_id_seq_max db Hdb) as Hmax.
      unfold get_playlist. rewrite isValidId_decimal by lia. cbn [negb].
      rewrite run_query. unfold answer.
      rewrite (exec_playlist_by_id _ (Playlist.id x))
        by (apply param_text_int; [apply decimal_int_of_text |]; lia).
      rewrite (filter_key_unique Playlist.id _ _ (playlists_pk db Hdb) Hin).
      reflexivity.
Qed.

Lemma rows_are_fetched_by_their_identifier_witness :
  response_of (run [] (get_track "3") jukebox)
  = {| status := 200;
       json := JsonRow (TrackRow {| Track.id := 3; Track.name := "Creep";
                                    Track.duration_ms := 238000 |}) |}.
Proof.
  destruct (rows_are_fetched_by_their_identifier jukebox jukebox_consistent)
    as [Htracks _]; [vm_compute; discriminate | vm_compute; discriminate |].
  apply Htracks. split; [| vm_compute; reflexivity].
  apply list_elem_of_further, list_elem_of_further, list_elem_of_here.
Defined.

(** ** How a thrown error is answered *)

(** X16.  When a [db.query] of any handler throws, the answer is 400 if the
    call is the insert of POST /playlists/:id/tracks and the error carries
    SQLSTATE 23505, and 500 in every other case; the name of the violated
    constraint is not looked at. *)
Theorem thrown_errors_classified_by_sqlstate faults req db q e :
  (q, Throws e) ∈ calls_of (run faults (handler req) db) ->
  status (response_of (run faults (handler req) db))
  = if is_playlist_track_insert q && bool_decide (code e = Some unique_violation)
    then 400 else 500.
Proof.
  revert q e.
  destruct req as [| id | | body | id | id | id body]; unfold handler.
  - unfold get_tracks. query_step.
    destruct result as [rows | e']; calls_cases; reflexivity.
  - unfold get_track. destruct (isValidId id); cbn [negb]; [| calls_cases].
    query_step.
    destruct result as [[| row rows] | e']; calls_cases; reflexivity.
  - unfold get_playlists. query_step.
    destruct result as [rows | e']; calls_cases; reflexivity.
  - unfold post_playlists. destruct (truthy body); cbn [negb]; [| calls_cases].
    destruct (negb (truthy (get_field body "name"))
              || negb (truthy (get_field body "description"))); [calls_cases |].
    destruct (get_field body "name"); try solve [calls_cases].
    destruct (get_field body "description"); try solve [calls_cases].
    query_step.
    destruct result as [[| row rows] | e']; calls_cases; reflexivity.
  - unfold get_playlist. destruct (isValidId id); cbn [negb]; [| calls_cases].
    query_step.
    destruct result as [[| row rows] | e']; calls_cases; reflexivity.
  - unfold get_playlist_tracks.
    destruct (isValidId id); cbn [negb]; [| calls_cases].
    query_step.
    destruct result as [[| row rows] | e'];
      [calls_cases | | calls_cases; reflexivity].
    query_step.
    destruct result as [rows' | e']; calls_cases; reflexivity.
  - unfold post_playlist_tracks.
    destruct (isValidId id); cbn [negb]; [| calls_cases].
    destruct (truthy body); cbn [negb]; [| calls_cases].
    destruct (get_field body "trackId") as [| | b | trackId | | s | items | fields];
      try solve [calls_cases].
    destruct (trackId <=? 0); [calls_cases |].
    query_step.
    destruct result as [[| row rows] | e'];
      [calls_cases | | calls_cases; reflexivity].
    query_step.
    destruct result as [[| row' rows'] | e'];
      [calls_cases | | calls_cases; reflexivity].
    query_step.
    destruct result as [[| playlistTrack others] | e'];
      [| | destruct (decide (code e' = Some "23505")) as [Hc | Hc]];
      calls_cases; simpl.
    + rewrite bool_decide_eq_true_2 by exact Hc. reflexivity.
    + rewrite bool_decide_eq_false_2 by exact Hc. reflexivity.
Qed.

Lemma thrown_errors_classified_by_sqlstate_witness :
  status (response_of
            (run [] (handler (POST_playlist_tracks "1" (trackId_body 3))) jukebox))
  = 400.
Proof.
  apply (thrown_errors_classified_by_sqlstate
           [] (POST_playlist_tracks "1" (trackId_body 3)) jukebox
           (InsertPlaylistTrack (PText "1") (PNumber 3))
           (constraint_error unique_violation
              playlists_tracks_playlist_id_track_id_key)).
  vm_compute. do 2 apply list_elem_of_further. apply list_elem_of_here.
Defined.
